(** * Graph traversal utilities of [bindings/python/cntk/graph.py]

    A shallow embedding of [depth_first_search], the name-lookup wrappers
    and [output_function_graph], together with the properties stated about
    them.  The graph-node object model ([root_function], [inputs], [owner],
    ...) is external to the module: nodes are object identities and the
    object store maps an identity to the attributes the code probes, each of
    which may be absent (probing an absent attribute raises
    [AttributeError]). *)

From Stdlib Require Import ZArith String Ascii Sorted Permutation.
From stdpp Require Import gmap strings list.

Set Warnings "-clear-no-such-hyp".


(** ** Object model *)

Definition loc := nat.

Record obj := Obj {
  block_root : option loc;
  block_arguments_mapping : option (list (loc * loc));
  root_function : option loc;
  inputs : option (list loc);
  outputs : option (list loc);
  is_output : option bool;
  owner : option loc;
  name : option string;
  op_name : option string;
  uid : option string;
  shape : option string
}.

(** An object without any of the probed attributes. *)
Definition bare : obj :=
  Obj None None None None None None None None None None None.

Abbreviation graph := (gmap loc obj).

(** [getattr g f n] is [n.f]; [None] stands for [AttributeError].  An
    identity outside the store is an object with no attribute at all. *)
Definition getattr {A} (g : graph) (f : obj → option A) (n : loc) : option A :=
  g !! n ≫= f.

(** ** Exceptions *)

Inductive exn := AttributeError | IndexError | ValueError | ImportError.

Inductive result (A : Type) :=
| Ok (a : A)
| Raise (e : exn).
Arguments Ok {A} a.
Arguments Raise {A} e.

(** Values a caller can pass as [node_name]. *)
Inductive pyval :=
| PyStr (s : string)
| PyInt (z : Z)
| PyNone.

(** ** [depth_first_search] *)

Module DFS.

(** The Python list [stack] is kept with its top (the end that [pop]
    removes) at the head; [accum] is in append order. *)
Record state := State {
  stack : list (loc * nat * nat);
  accum : list (loc * nat);
  visited : gset loc
}.

Definition set_stack (s : list (loc * nat * nat)) (st : state) : state :=
  State s (accum st) (visited st).

(** [stack.extend(xs)]: the last element of [xs] ends on top. *)
Definition extend (xs : list (loc * nat * nat)) (st : state) : state :=
  set_stack (reverse xs ++ stack st) st.

Definition mark (n : loc) (st : state) : state :=
  State (stack st) (accum st) ({[n]} ∪ visited st).

Definition mark_all (ns : list loc) (st : state) : state :=
  State (stack st) (accum st) (list_to_set ns ∪ visited st).

Definition append (n : loc) (distance : nat) (st : state) : state :=
  State (stack st) (accum st ++ [(n, distance)]) (visited st).

(** [max_depth is None or depth < max_depth] *)
Definition depth_allows (max_depth : option Z) (depth : nat) : bool :=
  match max_depth with
  | None => true
  | Some m => (Z.of_nat depth <? m)%Z
  end.

(** [node.root_function.inputs] *)
Definition function_inputs (g : graph) (node : loc) : option (list loc) :=
  r ← getattr g root_function node; getattr g inputs r.

(** [if visitor(node): accum.append((node, distance))] *)
Definition visit (visitor : loc → result bool) (node : loc) (distance : nat)
    (st : state) : result state :=
  match visitor node with
  | Ok true => Ok (append node distance st)
  | Ok false => Ok st
  | Raise e => Raise e
  end.

(** Lines 37-41: the mutations of the BlockFunction branch that precede the
    call of the visitor. *)
Definition expand_block (node : loc) (distance depth : nat) (composite : loc)
    (mapping : list (loc * loc)) (st : state) : state :=
  mark node
    (set_stack ((composite, S distance, S depth) :: stack (extend ((λ p, (p.2, S distance, depth)) <$> mapping) st))
       (mark_all (mapping.*1) st)).

(** Lines 30-47.  [inl r]: the branch ran to its [continue] with outcome [r];
    [inr st']: control falls through to line 48 in state [st'] (the bare
    [except] swallows whatever was raised, mutations already made stay). *)
Definition try_block (g : graph) (visitor : loc → result bool)
    (max_depth : option Z) (node : loc) (distance depth : nat) (st : state)
    : result state + state :=
  if depth_allows max_depth depth then
    match getattr g block_root node with
    | Some composite =>
        match getattr g block_arguments_mapping node with
        | Some mapping =>
            let st1 := expand_block node distance depth composite mapping st in
            match visit visitor node distance st1 with
            | Ok st2 => inl (Ok st2)
            | Raise _ => inr st1
            end
        | None => inr st
        end
    | None => inr st
    end
  else inr st.

(** Lines 61-64. *)
Definition finish (visitor : loc → result bool) (node : loc) (distance : nat)
    (st : state) : result state :=
  match visit visitor node distance st with
  | Ok st' => Ok (mark node st')
  | Raise e => Raise e
  end.

(** Lines 48-64. *)
Definition function_or_variable (g : graph) (visitor : loc → result bool)
    (node : loc) (distance depth : nat) (st : state) : result state :=
  match function_inputs g node with
  | Some ins =>
      finish visitor node distance (extend ((λ i, (i, S distance, depth)) <$> ins) st)
  | None =>
      match getattr g is_output node with
      | Some true =>
          match getattr g owner node with
          | Some o => Ok (mark node (extend [(o, S distance, depth)] st))
          | None => finish visitor node distance st
          end
      | _ => finish visitor node distance st
      end
  end.

(** One iteration of the [while stack:] loop (lines 27-64). *)
Definition iter (g : graph) (visitor : loc → result bool)
    (max_depth : option Z) (st : state) : result state :=
  match stack st with
  | [] => Ok st
  | (node, distance, depth) :: rest =>
      let st0 := set_stack rest st in
      if decide (node ∈ visited st) then Ok st0
      else
        match try_block g visitor max_depth node distance depth st0 with
        | inl r => r
        | inr st1 => function_or_variable g visitor node distance depth st1
        end
  end.

(** The loop; [None] when the iterations allowed by [fuel] do not empty the
    stack. *)
Fixpoint loop (fuel : nat) (g : graph) (visitor : loc → result bool)
    (max_depth : option Z) (st : state) : option (result state) :=
  match stack st with
  | [] => Some (Ok st)
  | _ :: _ =>
      match fuel with
      | O => None
      | S fuel' =>
          match iter g visitor max_depth st with
          | Ok st' => loop fuel' g visitor max_depth st'
          | Raise e => Some (Raise e)
          end
      end
  end.

(** [accum.sort(key=lambda tpl: tpl[1])]: a stable sort on the distance. *)
Fixpoint insert_by_distance (x : loc * nat) (l : list (loc * nat)) : list (loc * nat) :=
  match l with
  | [] => [x]
  | y :: l' => if (x.2 <=? y.2)%nat then x :: y :: l' else y :: insert_by_distance x l'
  end.

Definition sort_by_distance (l : list (loc * nat)) : list (loc * nat) :=
  foldr insert_by_distance [] l.

(** Lines 66-69. *)
Definition collect (sort : bool) (st : state) : list loc :=
  (if sort then sort_by_distance (accum st) else accum st).*1.

Definition init (root : loc) : state := State [(root, 0, 0)] [] ∅.

(** An upper bound on the number of elements one iteration can push for a
    node. *)
Definition cost (g : graph) (n : loc) : nat :=
  from_option (λ m, S (length m)) 0 (getattr g block_arguments_mapping n)
  + from_option length 0 (function_inputs g n)
  + from_option (λ b : bool, if b then 1 else 0) 0 (getattr g is_output n).

Definition pending_cost (g : graph) (vis : gset loc) : nat :=
  sum_list ((λ n, if decide (n ∈ vis) then 0 else cost g n) <$> elements (dom g)).

Definition potential (g : graph) (st : state) : nat :=
  length (stack st) + pending_cost g (visited st).

Definition run (fuel : nat) (g : graph) (root : loc) (visitor : loc → result bool)
    (max_depth : option Z) : option (result state) :=
  loop fuel g visitor max_depth (init root).

Definition fuel_for (g : graph) (root : loc) : nat := potential g (init root).

End DFS.

(** [depth_first_search(root, visitor, max_depth, sort_by_distance)].  The
    loop is given [DFS.fuel_for] iterations, which always suffice
    ([DFSFacts.loop_terminates]). *)
Definition depth_first_search (g : graph) (root : loc)
    (visitor : loc → result bool) (max_depth : option Z) (sort_by_distance : bool)
    : option (result (list loc)) :=
  match DFS.run (DFS.fuel_for g root) g root visitor max_depth with
  | Some (Ok st) => Some (Ok (DFS.collect sort_by_distance st))
  | Some (Raise e) => Some (Raise e)
  | None => None
  end.

(** [lambda x: x.name == node_name] *)
Definition name_is (g : graph) (node_name : pyval) (x : loc) : result bool :=
  match getattr g name x with
  | None => Raise AttributeError
  | Some s =>
      Ok match node_name with
         | PyStr s' => bool_decide (s = s')
         | _ => false
         end
  end.

Definition is_str (v : pyval) : bool :=
  match v with PyStr _ => true | _ => false end.

Definition find_all_with_name (g : graph) (node : loc) (node_name : pyval)
    (max_depth : option Z) : option (result (list loc)) :=
  depth_first_search g node (name_is g node_name) max_depth false.

(** [find_by_name]; the returned [None] of Python is the inner [None]. *)
Definition find_by_name (g : graph) (node : loc) (node_name : pyval)
    (max_depth : option Z) : option (result (option loc)) :=
  if negb (is_str node_name) then Some (Raise ValueError)
  else
    match depth_first_search g node (name_is g node_name) max_depth false with
    | Some (Ok res) =>
        if (1 <? length res)%nat then Some (Raise ValueError)
        else match res with
             | [] => Some (Ok None)
             | x :: _ => Some (Ok (Some x))
             end
    | Some (Raise e) => Some (Raise e)
    | None => None
    end.

Definition try_find_closest_by_name (g : graph) (node : loc) (node_name : pyval)
    (max_depth : option Z) : option (result (option loc)) :=
  if negb (is_str node_name) then Some (Raise ValueError)
  else
    match depth_first_search g node (name_is g node_name) max_depth true with
    | Some (Ok res) =>
        match res with
        | [] => Some (Ok None)
        | x :: _ => Some (Ok (Some x))
        end
    | Some (Raise e) => Some (Raise e)
    | None => None
    end.


(** ** Traversal steps and reachability, for stating the properties *)

Module Search.
Import DFS.

(** The BlockFunction branch is taken for [n] at block depth [d]. *)
Definition expands (g : graph) (max_depth : option Z) (n : loc) (d : nat) : bool :=
  depth_allows max_depth d
  && bool_decide (is_Some (getattr g block_root n))
  && bool_decide (is_Some (getattr g block_arguments_mapping n)).

(** The OutputVariable branch (lines 52-57) applies to [n]. *)
Definition output_variable (g : graph) (n : loc) : bool :=
  bool_decide (function_inputs g n = None)
  && bool_decide (getattr g is_output n = Some true)
  && bool_decide (is_Some (getattr g owner n)).

(** The nodes pushed when [n] is handled at block depth [d], each with the
    block depth it is pushed with. *)
Definition successors_at (g : graph) (max_depth : option Z) (n : loc) (d : nat)
    : list (loc * nat) :=
  if expands g max_depth n d then
    ((λ p : loc * loc, (p.2, d)) <$> default [] (getattr g block_arguments_mapping n))
    ++ ((λ c, (c, S d)) <$> option_list (getattr g block_root n))
  else
    (λ i, (i, d)) <$>
      match function_inputs g n with
      | Some ins => ins
      | None => if output_variable g n then option_list (getattr g owner n) else []
      end.

Definition successors (g : graph) (max_depth : option Z) (n : loc) (d : nat) : list loc :=
  (successors_at g max_depth n d).*1.

(** Reachable at some block depth, the depth limit being applied along the
    path: the reading of "reachable within the depth limit". *)
Inductive reach_within (g : graph) (max_depth : option Z) (root : loc)
    : loc → nat → Prop :=
| within_root : reach_within g max_depth root root 0
| within_step n d n' d' :
    reach_within g max_depth root n d →
    (n', d') ∈ successors_at g max_depth n d →
    reach_within g max_depth root n' d'.

(** What handling the unvisited node [n], popped with [distance] and
    [depth], does: the elements pushed (in push order), the further nodes
    marked visited, and the visitor's answer when it decides about [n]. *)
Inductive handles (g : graph) (visitor : loc → result bool) (max_depth : option Z)
    (n : loc) (distance depth : nat)
    : list (loc * nat * nat) → list loc → option bool → Prop :=
| handles_block c m b :
    depth_allows max_depth depth = true →
    getattr g block_root n = Some c →
    getattr g block_arguments_mapping n = Some m →
    visitor n = Ok b →
    handles g visitor max_depth n distance depth
      (((λ p, (p.2, S distance, depth)) <$> m) ++ [(c, S distance, S depth)])
      (m.*1) (Some b)
| handles_function ins b :
    expands g max_depth n depth = false →
    function_inputs g n = Some ins →
    visitor n = Ok b →
    handles g visitor max_depth n distance depth
      ((λ i, (i, S distance, depth)) <$> ins) [] (Some b)
| handles_output o :
    expands g max_depth n depth = false →
    function_inputs g n = None →
    getattr g is_output n = Some true →
    getattr g owner n = Some o →
    handles g visitor max_depth n distance depth [(o, S distance, depth)] [] None
| handles_leaf b :
    expands g max_depth n depth = false →
    function_inputs g n = None →
    output_variable g n = false →
    visitor n = Ok b →
    handles g visitor max_depth n distance depth [] [] (Some b)
| handles_block_output c m o e :
    depth_allows max_depth depth = true →
    getattr g block_root n = Some c →
    getattr g block_arguments_mapping n = Some m →
    visitor n = Raise e →
    function_inputs g n = None →
    getattr g is_output n = Some true →
    getattr g owner n = Some o →
    handles g visitor max_depth n distance depth
      (((λ p, (p.2, S distance, depth)) <$> m) ++ [(c, S distance, S depth)]
       ++ [(o, S distance, depth)])
      (m.*1) None.

Definition accepted (n : loc) (distance : nat) (r : option bool) : list (loc * nat) :=
  match r with Some true => [(n, distance)] | _ => [] end.

(** One iteration of the loop, as a relation on states. *)
Inductive step (g : graph) (visitor : loc → result bool) (max_depth : option Z)
    : state → state → Prop :=
| step_skip n distance depth rest acc vis :
    n ∈ vis →
    step g visitor max_depth (State ((n, distance, depth) :: rest) acc vis)
      (State rest acc vis)
| step_handle n distance depth rest acc vis pushed extra r :
    n ∉ vis →
    handles g visitor max_depth n distance depth pushed extra r →
    step g visitor max_depth (State ((n, distance, depth) :: rest) acc vis)
      (State (reverse pushed ++ rest) (acc ++ accepted n distance r)
         ({[n]} ∪ (list_to_set extra ∪ vis))).

(** The distance recorded for [n] in the accumulator. *)
Fixpoint distance_of (acc : list (loc * nat)) (n : loc) : nat :=
  match acc with
  | [] => 0
  | (m, d) :: acc' => if decide (m = n) then d else distance_of acc' n
  end.

(** ** Invariants of the loop *)

Record accum_ok (g : graph) (visitor : loc → result bool) (st : state) : Prop := {
  accum_visited : ∀ n, n ∈ (accum st).*1 → n ∈ visited st;
  accum_nodup : NoDup (accum st).*1;
  accum_accepted : ∀ n, n ∈ (accum st).*1 → visitor n = Ok true;
  accum_kind : ∀ n, n ∈ (accum st).*1 →
    is_Some (getattr g block_root n) ∨ output_variable g n = false
}.

(** The loop has settled whether [n] is returned. *)
Definition decided (g : graph) (visitor : loc → result bool) (st : state)
    (n : loc) : Prop :=
  output_variable g n = true ∨ visitor n ≠ Ok true ∨ n ∈ (accum st).*1.

End Search.

(** ** [output_function_graph] *)

Module OFG.

Definition nl : string := String "010" EmptyString.
Definition dquote : string := String "034" EmptyString.

(** [s.split("\n")] *)
Fixpoint split_lines (s : string) : list string :=
  match s with
  | EmptyString => [EmptyString]
  | String c rest =>
      if Ascii.eqb c "010" then EmptyString :: split_lines rest
      else match split_lines rest with
           | [] => [String c EmptyString]
           | l :: ls => String c l :: ls
           end
  end.

(** The pydot graph under construction: the nodes and edges added so far.
    (The graph-wide defaults, which is all that [scale] affects, are left
    out.) *)
Inductive dot_item :=
| DotNode (name : string) (attributes : list (string * string))
| DotEdge (src dst label : string).

Record state := State {
  node : loc;                  (* the loop variable, reassigned at line 206 *)
  stack : list loc;            (* top at the head *)
  accum : list loc;
  visited : gset loc;
  model : string;
  dot_object : list dot_item
}.

(** Statements that change the state and may raise. *)
Definition M (A : Type) : Type := state → state * result A.

#[global] Instance M_ret : MRet M := λ A a st, (st, Ok a).
#[global] Instance M_bind : MBind M := λ A B k m st,
  match m st with
  | (st', Ok a) => k a st'
  | (st', Raise e) => (st', Raise e)
  end.

Definition raise {A} (e : exn) : M A := λ st, (st, Raise e).

(** [try: body / except AttributeError: handler] *)
Definition except_attribute_error (body handler : M unit) : M unit := λ st,
  match body st with
  | (st', Raise AttributeError) => handler st'
  | r => r
  end.

Definition attr {A} (g : graph) (f : obj → option A) (n : loc) : M A :=
  match getattr g f n with
  | Some a => mret a
  | None => raise AttributeError
  end.

Definition get_node : M loc := λ st, (st, Ok (node st)).

Definition set_node (n : loc) : M unit := λ st,
  (State n (stack st) (accum st) (visited st) (model st) (dot_object st), Ok ()).

Definition push_all (xs : list loc) : M unit := λ st,
  (State (node st) (reverse xs ++ stack st) (accum st) (visited st) (model st)
     (dot_object st), Ok ()).

Definition add_model (s : string) : M unit := λ st,
  (State (node st) (stack st) (accum st) (visited st) (model st +:+ s)
     (dot_object st), Ok ()).

Definition add_dot (i : dot_item) : M unit := λ st,
  (State (node st) (stack st) (accum st) (visited st) (model st)
     (dot_object st ++ [i]), Ok ()).

Definition accumulate (n : loc) : M unit := λ st,
  (State (node st) (stack st) (accum st ++ [n]) (visited st) (model st)
     (dot_object st), Ok ()).

Definition mark (n : loc) : M unit := λ st,
  (State (node st) (stack st) (accum st) ({[n]} ∪ visited st) (model st)
     (dot_object st), Ok ()).

Definition when (b : bool) (m : M unit) : M unit := if b then m else mret ().

(** Lines 217-227: the loop over [node.inputs], at index [i] of [len]. *)
Fixpoint add_inputs (g : graph) (write_to_file : bool) (cur_node : string)
    (len i : nat) (children : list loc) : M unit :=
  match children with
  | [] => mret ()
  | child :: rest =>
      u ← attr g uid child;
      add_model u;;
      when (negb (i =? len - 1)) (add_model ", ");;
      when write_to_file
        (add_dot (DotNode u []);;
         sh ← attr g shape child;
         add_dot (DotEdge u cur_node sh));;
      add_inputs g write_to_file cur_node len (S i) rest
  end.

(** Lines 206-235: the body of the [try]. *)
Definition function_node (g : graph) (write_to_file : bool) : M unit :=
  n ← get_node;
  r ← attr g root_function n;
  set_node r;;
  ins ← attr g inputs r;
  push_all ins;;
  op ← attr g op_name r;
  add_model (op +:+ "(");;
  cur_node ←
    (if write_to_file then
       u ← attr g uid r;
       let cur := op +:+ " " +:+ u in
       add_dot (DotNode cur
                  [("label", dquote +:+ op +:+ dquote); ("shape", "circle");
                   ("fixedsize", "true"); ("height", "1"); ("width", "1")]);;
       mret cur
     else mret "");
  add_inputs g write_to_file cur_node (length ins) 0 ins;;
  outs ← attr g outputs r;
  out ← match outs with
        | [] => raise IndexError
        | o :: _ => mret o
        end;
  ou ← attr g uid out;
  add_model (") -> " +:+ ou +:+ nl);;
  when write_to_file
    (add_dot (DotNode ou []);;
     sh ← attr g shape out;
     add_dot (DotEdge cur_node ou sh)).

(** Lines 239-243. *)
Definition output_variable (g : graph) : M unit := λ st,
  match getattr g is_output (node st) with
  | Some true =>
      match getattr g owner (node st) with
      | Some o => push_all [o] st
      | None => (st, Ok ())
      end
  | _ => (st, Ok ())
  end.

(** Lines 204-248, for a node that is not yet visited. *)
Definition handle (g : graph) (write_to_file : bool) : M unit :=
  except_attribute_error (function_node g write_to_file) (output_variable g);;
  n ← get_node;
  accumulate n;;
  mark n.

(** One iteration of the loop (lines 199-248). *)
Definition iter (g : graph) (write_to_file : bool) (st : state)
    : state * result () :=
  match stack st with
  | [] => (st, Ok ())
  | n :: rest =>
      let st0 := State n rest (accum st) (visited st) (model st) (dot_object st) in
      if decide (n ∈ visited st) then (st0, Ok ()) else handle g write_to_file st0
  end.

Fixpoint loop (fuel : nat) (g : graph) (write_to_file : bool) (st : state)
    : option (state * result ()) :=
  match stack st with
  | [] => Some (st, Ok ())
  | _ :: _ =>
      match fuel with
      | O => None
      | S fuel' =>
          match iter g write_to_file st with
          | (st', Ok _) => loop fuel' g write_to_file st'
          | (st', Raise e) => Some (st', Raise e)
          end
      end
  end.

Definition init (root : loc) : state := State root [root] [] ∅ "" [].

(** Lines 190-248. *)
Definition traverse (fuel : nat) (g : graph) (write_to_file : bool) (root : loc)
    : option (state * result ()) :=
  loop fuel g write_to_file (init root).

Record paths := Paths {
  dot_file_path : option string;
  png_file_path : option string;
  pdf_file_path : option string;
  svg_file_path : option string
}.

(** [path != None] *)
Definition given (path : option string) : bool :=
  match path with Some _ => true | None => false end.

(** [if (path):] *)
Definition truthy (path : option string) : bool :=
  match path with
  | Some s => negb (String.eqb s "")
  | None => false
  end.

Inductive effect :=
| ImportPydot
| Write (format : string) (path : string) (content : list dot_item).

Definition write (format : string) (path : option string)
    (content : list dot_item) : list effect :=
  if truthy path then [Write format (default "" path) content] else [].

(** Line 175. *)
Definition write_to_file (p : paths) : bool :=
  given (dot_file_path p) || given (png_file_path p)
  || given (pdf_file_path p) || given (svg_file_path p).

(** Lines 250-257. *)
Definition writes (p : paths) (content : list dot_item) : list effect :=
  write "svg" (svg_file_path p) content ++ write "pdf" (pdf_file_path p) content
  ++ write "png" (png_file_path p) content ++ write "dot" (dot_file_path p) content.

(** Line 260. *)
Definition reversed_lines (model : string) : string :=
  String.concat nl (reverse (split_lines model)).

End OFG.

(** [output_function_graph(node, dot_file_path, png_file_path, pdf_file_path,
    svg_file_path)]: the effects performed, in order, and the outcome;
    [pydot_ng] tells whether the package can be imported.  [None] when the
    loop does not end within [fuel] iterations. *)
Definition output_function_graph (fuel : nat) (pydot_ng : bool) (g : graph)
    (node : loc) (p : OFG.paths) : option (list OFG.effect * result string) :=
  if OFG.write_to_file p && negb pydot_ng then
    Some ([OFG.ImportPydot], Raise ImportError)
  else
    let imports := if OFG.write_to_file p then [OFG.ImportPydot] else [] in
    match OFG.traverse fuel g (OFG.write_to_file p) node with
    | None => None
    | Some (st, Raise e) => Some (imports, Raise e)
    | Some (st, Ok _) =>
        Some (imports ++ OFG.writes p (OFG.dot_object st),
              Ok (OFG.reversed_lines (OFG.model st)))
    end.

(** ** The text the export is said to produce *)

Module Text.

Definition first_output (g : graph) (n : loc) : option loc :=
  outs ← getattr g outputs n; head outs.

(** [op_name(uid_1, ..., uid_k) -> output_uid] for the function node [n]:
    the uids of its inputs separated by [", "], and the uid of its first
    output. *)
Definition line (g : graph) (n : loc) : option string :=
  op ← getattr g op_name n;
  ins ← getattr g inputs n;
  uids ← mapM (getattr g uid) ins;
  out ← first_output g n;
  ou ← getattr g uid out;
  Some (op +:+ "(" +:+ String.concat ", " uids +:+ ") -> " +:+ ou).

(** [n] is a function node whose every probed attribute is present, and
    which is its own root function. *)
Definition function_ok (g : graph) (write_to_file : bool) (n : loc) : bool :=
  bool_decide (getattr g root_function n = Some n)
  && bool_decide (is_Some (line g n))
  && (negb write_to_file
      || (bool_decide (is_Some (getattr g uid n))
          && forallb (λ c, bool_decide (is_Some (getattr g shape c)))
               (default [] (getattr g inputs n))
          && bool_decide (is_Some (out ← first_output g n; getattr g shape out)))).

Definition is_function (g : graph) (n : loc) : bool :=
  bool_decide (is_Some (getattr g root_function n)).

(** [n] is a variable, or a well-formed function node. *)
Definition node_ok (g : graph) (write_to_file : bool) (n : loc) : bool :=
  negb (is_function g n) || function_ok g write_to_file n.

(** The node the traversal starts from may also be a composite function,
    whose root function is then a well-formed function node. *)
Definition root_ok (g : graph) (write_to_file : bool) (n : loc) : bool :=
  match getattr g root_function n with
  | None => true
  | Some r => function_ok g write_to_file r
  end.

(** Every node that occurs as an input or as an owner is a variable or a
    well-formed function node. *)
Definition well_formed (g : graph) (write_to_file : bool) : Prop :=
  map_Forall (λ _ o,
    forallb (node_ok g write_to_file) (default [] (inputs o))
    && from_option (node_ok g write_to_file) true (owner o) = true) g.

(** The lines of the function nodes among [ns], in order. *)
Definition lines_of (g : graph) (ns : list loc) : list string :=
  (λ n, default "" (line g n)) <$> filter (λ n, is_function g n = true) ns.

(** The lines, each ended by a newline. *)
Definition text_of (ls : list string) : string :=
  foldr (λ l s, l +:+ OFG.nl +:+ s) "" ls.

Fixpoint newline_free (s : string) : Prop :=
  match s with
  | EmptyString => True
  | String c s' => c ≠ "010"%char ∧ newline_free s'
  end.

(** No object is a block composite. *)
Definition block_free (g : graph) : Prop :=
  map_Forall (λ _ o, block_root o = None) g.

End Text.

(** ** Steps of the export's traversal on well-formed graphs *)

Module Walk.
Import OFG Text.

(** What a node without [root_function] pushes: its owner, when it is an
    output variable. *)
Definition owner_of (g : graph) (n : loc) : list loc :=
  match getattr g is_output n with
  | Some true => option_list (getattr g owner n)
  | _ => []
  end.

(** [st] with its text and pydot graph replaced. *)
Definition with_text (st : state) (mdl : string) (dot : list dot_item) : state :=
  State (node st) (stack st) (accum st) (visited st) mdl dot.

(** One iteration of the loop of [output_function_graph]. *)
Inductive step (g : graph) (write_to_file : bool) : state → state → Prop :=
| step_skip n nd rest acc vis mdl dot :
    n ∈ vis →
    step g write_to_file (State nd (n :: rest) acc vis mdl dot)
      (State n rest acc vis mdl dot)
| step_function n r nd rest acc vis mdl dot ins l dot' :
    n ∉ vis →
    getattr g root_function n = Some r →
    getattr g root_function r = Some r →
    getattr g inputs r = Some ins →
    line g r = Some l →
    (write_to_file = false → dot' = dot) →
    step g write_to_file (State nd (n :: rest) acc vis mdl dot)
      (State r (reverse ins ++ rest) (acc ++ [r]) ({[r]} ∪ vis)
         (mdl +:+ l +:+ nl) dot')
| step_variable n nd rest acc vis mdl dot :
    n ∉ vis →
    getattr g root_function n = None →
    step g write_to_file (State nd (n :: rest) acc vis mdl dot)
      (State n (reverse (owner_of g n) ++ rest) (acc ++ [n]) ({[n]} ∪ vis) mdl dot).

(** The states of the two traversals correspond: same pending nodes, same
    visited set, and [depth_first_search] has accepted the nodes collected
    by [output_function_graph] that are not output variables. *)
Definition related (g : graph) (os : state) (ds : DFS.state) : Prop :=
  (DFS.stack ds).*1.*1 = stack os
  ∧ DFS.visited ds = visited os
  ∧ (DFS.accum ds).*1 = filter (λ n, Search.output_variable g n = false) (accum os).

End Walk.

(** ** Paths and names, for further properties *)

Module Paths.
Import DFS Search.

(** [n] is reached from [root] in [distance] traversal steps, at block depth
    [depth]. *)
Inductive reached (g : graph) (max_depth : option Z) (root : loc)
    : loc → nat → nat → Prop :=
| reached_root : reached g max_depth root root 0 0
| reached_step n distance depth n' depth' :
    reached g max_depth root n distance depth →
    (n', depth') ∈ successors_at g max_depth n depth →
    reached g max_depth root n' (S distance) depth'.

(** [n.name] exists. *)
Definition named (g : graph) (n : loc) : bool :=
  bool_decide (is_Some (getattr g name n)).

(** Every node an object refers to (input, owner, composite root, actual
    input of a block) has a name. *)
Definition references_named (g : graph) : Prop :=
  map_Forall (λ _ o,
    forallb (named g) (default [] (inputs o))
    && from_option (named g) true (owner o)
    && from_option (named g) true (block_root o)
    && forallb (named g) (default [] (block_arguments_mapping o)).*2 = true) g.

End Paths.

Module Limit.
Import DFS Search.

(** The depth limit treats [n] at depth [d] as at every depth at which [n]
    can be reached: it is expanded as a block at all of them or at none. *)
Definition depth_stable (g : graph) (max_depth : option Z) (root n : loc)
    (d : nat) : Prop :=
  ∀ d', reach_within g max_depth root n d' →
        expands g max_depth n d' = expands g max_depth n d.

(** [f] is a composite input that a block which can be reached, at a depth
    at which it is expanded, maps to an actual input. *)
Definition mapped_away (g : graph) (max_depth : option Z) (root f : loc) : Prop :=
  ∃ b d m, reach_within g max_depth root b d
           ∧ expands g max_depth b d = true
           ∧ getattr g block_arguments_mapping b = Some m ∧ f ∈ m.*1.

(** Reachable within the depth limit, along a path that enters no mapped-away
    composite input and on which every node, after the root at depth 0, is
    [depth_stable]. *)
Inductive reach_limited (g : graph) (max_depth : option Z) (root : loc)
    : loc → nat → Prop :=
| limited_root : reach_limited g max_depth root root 0
| limited_step n d n' d' :
    reach_limited g max_depth root n d →
    (n = root ∧ d = 0) ∨ depth_stable g max_depth root n d →
    (n', d') ∈ successors_at g max_depth n d →
    ¬ mapped_away g max_depth root n' →
    reach_limited g max_depth root n' d'.

(** [n] has been handled at block depth [d]: what it pushes is visited or
    pending, and whether it is returned is settled. *)
Definition handled_at (g : graph) (visitor : loc → result bool)
    (max_depth : option Z) (st : state) (n : loc) (d : nat) : Prop :=
  n ∈ visited st
  ∧ (∀ n', n' ∈ successors g max_depth n d →
           n' ∈ visited st ∨ n' ∈ (stack st).*1.*1)
  ∧ decided g visitor st n.

Record limit_ok (g : graph) (visitor : loc → result bool) (max_depth : option Z)
    (root : loc) (st : state) : Prop := {
  limit_stack : ∀ n distance d,
    (n, distance, d) ∈ stack st → reach_within g max_depth root n d;
  limit_root : st = init root ∨ handled_at g visitor max_depth st root 0;
  limit_visited : ∀ n, n ∈ visited st →
    mapped_away g max_depth root n
    ∨ ∃ d, reach_within g max_depth root n d
           ∧ handled_at g visitor max_depth st n d
}.

End Limit.

Module Collect.
Import OFG Text Walk.

(** The node whose attributes the first iteration reads: the root function
    of the start node, or the start node itself when it has none. *)
Definition entry (g : graph) (root : loc) : loc :=
  default root (getattr g root_function root).

(** What the export pushes for [n]: the inputs of its root function, or its
    owner when it is an output variable. *)
Definition export_successors (g : graph) (n : loc) : list loc :=
  match getattr g root_function n with
  | Some r => default [] (getattr g inputs r)
  | None => owner_of g n
  end.

(** Reachable from the entry node through inputs and owners. *)
Inductive collected (g : graph) (root : loc) : loc → Prop :=
| collected_entry : collected g root (entry g root)
| collected_step n n' :
    collected g root n → n' ∈ export_successors g n → collected g root n'.

Record collect_ok (g : graph) (write_to_file : bool) (root : loc) (st : state)
    : Prop := {
  collect_nodup : NoDup (accum st);
  collect_accum : ∀ n, n ∈ accum st ↔ n ∈ visited st;
  collect_entry : entry g root ∈ visited st;
  collect_stack : ∀ n, n ∈ stack st →
    collected g root n ∧ node_ok g write_to_file n = true;
  collect_visited : ∀ n, n ∈ visited st →
    collected g root n
    ∧ ∀ n', n' ∈ export_successors g n → n' ∈ visited st ∨ n' ∈ stack st
}.

End Collect.

Module Same.
Import OFG.

(** Two states of the export's loop that differ at most in the pydot
    graph. *)
Definition same_text (s1 s2 : state) : Prop :=
  node s1 = node s2 ∧ stack s1 = stack s2 ∧ accum s1 = accum s2
  ∧ visited s1 = visited s2 ∧ model s1 = model s2.

End Same.

(** ** Sample graphs *)

Module Samples.

Definition fn (self : loc) (ins outs : list loc) (nm op u : string) : obj :=
  Obj None None (Some self) (Some ins) (Some outs) None None
    (Some nm) (Some op) (Some u) None.

Definition block (self composite : loc) (mapping : list (loc * loc))
    (ins outs : list loc) (nm op u : string) : obj :=
  Obj (Some composite) (Some mapping) (Some self) (Some ins) (Some outs) None None
    (Some nm) (Some op) (Some u) None.

Definition outvar (own : loc) (nm u sh : string) : obj :=
  Obj None None None None None (Some true) (Some own) (Some nm) None (Some u) (Some sh).

Definition var (nm u sh : string) : obj :=
  Obj None None None None None (Some false) None (Some nm) None (Some u) (Some sh).

(** [0 = Plus(1, 4)], where [1] is the output of [2 = Times(3)] and [3], [4]
    are parameters; [5] is the output of [0]; [6] is the composite function
    whose root function is [0]. *)
Definition chain : graph :=
  list_to_map
    [ (0, fn 0 [1; 4] [5] "z" "Plus" "Plus7");
      (1, outvar 2 "h" "Times3_Output_0" "[2]");
      (2, fn 2 [3] [1] "h" "Times" "Times3");
      (3, var "w" "Parameter1" "[2 x 2]");
      (4, var "b" "Parameter2" "[2]");
      (5, outvar 0 "z" "Plus7_Output_0" "[2]");
      (6, Obj None None (Some 0) (Some [3; 4]) (Some [5]) None None
            (Some "z") (Some "Plus") (Some "Composite8") None) ]%string.

(** [10] is a block over the composite rooted at [11 = Times(12)]; the
    composite's placeholder [12] is mapped to the actual input [13]. *)
Definition dense : graph :=
  list_to_map
    [ (10, block 10 11 [(12, 13)] [13] [14] "dense" "Dense" "Block9");
      (11, fn 11 [12] [15] "t" "Times" "Times5");
      (12, var "x" "Placeholder4" "[2]");
      (13, var "features" "Input0" "[2]");
      (14, outvar 10 "dense" "Block9_Output_0" "[2]");
      (15, outvar 11 "t" "Times5_Output_0" "[2]") ]%string.

(** A cycle: [20] and [22] are functions over each other's outputs. *)
Definition cyclic : graph :=
  list_to_map
    [ (20, fn 20 [23] [21] "a" "Plus" "Plus1");
      (21, outvar 20 "a" "Plus1_Output_0" "[1]");
      (22, fn 22 [21] [23] "b" "Times" "Times2");
      (23, outvar 22 "b" "Times2_Output_0" "[1]") ]%string.

(** Block [30] is reached at block depth 1 (inside block [31]) before it is
    reached at depth 0; [32] is the root of the composite of [30]. *)
Definition nested : graph :=
  list_to_map
    [ (29, fn 29 [30; 31] [] "root" "Plus" "Plus29");
      (30, block 30 32 [] [] [] "inner" "Inner" "Block30");
      (31, block 31 33 [] [] [] "outer" "Outer" "Block31");
      (32, fn 32 [] [] "core" "Times" "Times32");
      (33, fn 33 [30] [] "wrap" "Plus" "Plus33") ]%string.

(** [40] is a composite function whose root function [41] has [40] itself
    as its input. *)
Definition looping : graph :=
  list_to_map
    [ (40, Obj None None (Some 41) (Some []) (Some [42]) None None
             (Some "f") (Some "Plus") (Some "Composite40") (Some "[1]"));
      (41, fn 41 [40] [42] "f" "Plus" "Plus41");
      (42, outvar 41 "f" "Plus41_Output_0" "[1]") ]%string.

(** [50] is a function over the parameter [51], with no output. *)
Definition sink : graph :=
  list_to_map
    [ (50, fn 50 [51] [] "s" "Sink" "Sink50");
      (51, var "x" "Parameter51" "[1]") ]%string.

End Samples.

(** * Properties of [depth_first_search] *)

Module DFSFacts.
Import DFS Search.

Lemma step_handle_eq g visitor md n distance depth rest acc vis pushed extra r s' a' v' :
  n ∉ vis →
  handles g visitor md n distance depth pushed extra r →
  s' = reverse pushed ++ rest →
  a' = acc ++ accepted n distance r →
  v' = {[n]} ∪ (list_to_set extra ∪ vis) →
  step g visitor md (State ((n, distance, depth) :: rest) acc vis) (State s' a' v').
Proof. intros Hn Hh -> -> ->. by constructor. Qed.

Lemma expands_false_iff g md n d :
  expands g md n d = false ↔
  depth_allows md d = false ∨ getattr g block_root n = None
  ∨ getattr g block_arguments_mapping n = None.
Proof.
  unfold expands. rewrite !andb_false_iff, !bool_decide_eq_false.
  rewrite <-!eq_None_not_Some. tauto.
Qed.

Lemma expands_true_iff g md n d :
  expands g md n d = true ↔
  depth_allows md d = true ∧ is_Some (getattr g block_root n)
  ∧ is_Some (getattr g block_arguments_mapping n).
Proof.
  unfold expands. rewrite !andb_true_iff, !bool_decide_eq_true. naive_solver.
Qed.

Lemma output_variable_true_iff g n :
  output_variable g n = true ↔
  function_inputs g n = None ∧ getattr g is_output n = Some true
  ∧ is_Some (getattr g owner n).
Proof.
  unfold output_variable. rewrite !andb_true_iff, !bool_decide_eq_true. naive_solver.
Qed.

Local Ltac side := first [done | simpl; rewrite ?app_nil_r, ?reverse_app, ?reverse_singleton, ?reverse_nil; done | set_solver].

Local Ltac leaf_case H :=
  eapply step_handle_eq; [done|eapply handles_leaf; try done|side|side|side];
  unfold output_variable; rewrite H; simpl; by rewrite ?andb_false_r.

(** The relation [step] describes [iter] exactly. *)
Lemma iter_step g visitor md st st' :
  stack st ≠ [] → iter g visitor md st = Ok st' → step g visitor md st st'.
Proof.
  destruct st as [[|[[n distance] depth] rest] acc vis]; [done|].
  intros _. unfold iter. simpl.
  destruct (decide (n ∈ vis)) as [Hin|Hin].
  { intros [= <-]. by constructor. }
  unfold try_block, set_stack. simpl.
  assert (Hfov : ∀ st1, stack st1 = rest → accum st1 = acc → visited st1 = vis →
            expands g md n depth = false →
            function_or_variable g visitor n distance depth st1 = Ok st' →
            step g visitor md (State ((n, distance, depth) :: rest) acc vis) st').
  { intros [s1 a1 v1]; simpl; intros -> -> -> Hex.
    unfold function_or_variable, finish, visit, extend, set_stack, mark, append; simpl.
    destruct (function_inputs g n) as [ins|] eqn:Hfi.
    - destruct (visitor n) as [[]|] eqn:Hv; intros [= <-];
        (eapply step_handle_eq; [done|by eapply handles_function|side|side|side]).
    - destruct (getattr g is_output n) as [[]|] eqn:Hio.
      + destruct (getattr g owner n) as [o|] eqn:Hown.
        * intros [= <-].
          eapply step_handle_eq; [done|by eapply handles_output|side|side|side].
        * destruct (visitor n) as [[]|] eqn:Hv; intros [= <-]; leaf_case Hown.
      + destruct (visitor n) as [[]|] eqn:Hv; intros [= <-]; leaf_case Hio.
      + destruct (visitor n) as [[]|] eqn:Hv; intros [= <-]; leaf_case Hio. }
  destruct (depth_allows md depth) eqn:Hd.
  2:{ apply Hfov; try done. apply expands_false_iff; auto. }
  destruct (getattr g block_root n) as [c|] eqn:Hc.
  2:{ apply Hfov; try done. apply expands_false_iff; auto. }
  destruct (getattr g block_arguments_mapping n) as [m|] eqn:Hm.
  2:{ apply Hfov; try done. apply expands_false_iff; auto. }
  unfold visit, expand_block, extend, set_stack, mark, mark_all, append; simpl.
  destruct (visitor n) as [[]|e] eqn:Hv.
  - intros [= <-].
    eapply step_handle_eq; [done|by eapply handles_block|side|side|side].
  - intros [= <-].
    eapply step_handle_eq; [done|by eapply handles_block|side|side|side].
  - unfold function_or_variable, finish, visit, extend, set_stack, mark; simpl.
    rewrite Hv.
    destruct (function_inputs g n) as [ins|] eqn:Hfi; [done|].
    destruct (getattr g is_output n) as [[]|] eqn:Hio; try done.
    destruct (getattr g owner n) as [o|] eqn:Hown; [|done].
    intros [= <-].
    eapply step_handle_eq; [done|by eapply handles_block_output|side|side|side].
Qed.


(** ** Termination *)

Lemma cost_outside (g : graph) n : g !! n = None → cost g n = 0.
Proof.
  intros H. unfold cost, function_inputs, getattr. by rewrite H.
Qed.

Lemma sum_marked (c : loc → nat) (v1 v2 : gset loc) (l : list loc) :
  v1 ⊆ v2 →
  sum_list ((λ x, if decide (x ∈ v2) then 0 else c x) <$> l)
  ≤ sum_list ((λ x, if decide (x ∈ v1) then 0 else c x) <$> l).
Proof.
  intros Hsub. induction l as [|x l IH]; csimpl; [lia|].
  repeat case_decide; first [lia | exfalso; set_solver].
Qed.

Lemma sum_marked_new (c : loc → nat) (v1 v2 : gset loc) (l : list loc) n :
  v1 ⊆ v2 → n ∉ v1 → n ∈ v2 → n ∈ l ∨ c n = 0 →
  sum_list ((λ x, if decide (x ∈ v2) then 0 else c x) <$> l) + c n
  ≤ sum_list ((λ x, if decide (x ∈ v1) then 0 else c x) <$> l).
Proof.
  intros Hsub Hn1 Hn2 [Hin|Hz].
  - induction l as [|x l IH]; [by apply elem_of_nil in Hin|].
    csimpl. apply elem_of_cons in Hin as [<-|Hin].
    + pose proof (sum_marked c v1 v2 l Hsub).
      repeat case_decide; try done; lia.
    + specialize (IH Hin). repeat case_decide; first [lia | exfalso; set_solver].
  - rewrite Hz, Nat.add_0_r. by apply sum_marked.
Qed.

Lemma pending_cost_mark (g : graph) (vis : gset loc) n (extra : list loc) :
  n ∉ vis →
  pending_cost g ({[n]} ∪ (list_to_set extra ∪ vis)) + cost g n ≤ pending_cost g vis.
Proof.
  intros Hn. unfold pending_cost.
  apply sum_marked_new; [set_solver|done|set_solver|].
  destruct (g !! n) as [o|] eqn:Hg.
  - left. apply elem_of_elements, elem_of_dom. eauto.
  - right. by apply cost_outside.
Qed.

Lemma handles_cost g visitor md n distance depth pushed extra r :
  handles g visitor md n distance depth pushed extra r → length pushed ≤ cost g n.
Proof.
  unfold cost.
  destruct 1 as [c m b _ _ Hm _|ins b _ Hf _|o _ _ Hio _|b|c m o e _ _ Hm _ _ Hio _];
    rewrite ?Hm, ?Hf, ?Hio; simpl; rewrite ?length_app, ?length_fmap; simpl; lia.
Qed.

Lemma step_potential g visitor md st st' :
  step g visitor md st st' → potential g st' < potential g st.
Proof.
  destruct 1 as [n distance depth rest acc vis Hin|n distance depth rest acc vis pushed extra r Hn Hh];
    unfold potential; simpl; [lia|].
  apply handles_cost in Hh.
  pose proof (pending_cost_mark g vis n extra Hn).
  rewrite length_app, length_reverse. lia.
Qed.

(** With at least [potential g st] iterations the loop ends. *)
Lemma loop_terminates g visitor md fuel st :
  potential g st ≤ fuel → is_Some (loop fuel g visitor md st).
Proof.
  revert st. induction fuel as [|fuel IH]; intros st Hp.
  - destruct st as [[|x s] acc vis]; simpl; [eauto|].
    unfold potential in Hp; simpl in Hp; lia.
  - destruct (stack st) as [|x s] eqn:Hs.
    + destruct st; simpl in *; subst; simpl; eauto.
    + assert (Hne : stack st ≠ []) by (by rewrite Hs).
      assert (loop (S fuel) g visitor md st =
              match iter g visitor md st with
              | Ok st' => loop fuel g visitor md st'
              | Raise e => Some (Raise e)
              end) as -> by (simpl; by rewrite Hs).
      destruct (iter g visitor md st) as [st'|e] eqn:Hit; [|eauto].
      apply IH. apply iter_step in Hit; [|done].
      apply step_potential in Hit. lia.
Qed.

(** More fuel never changes an outcome. *)
Lemma loop_fuel_mono g visitor md fuel fuel' st r :
  loop fuel g visitor md st = Some r → fuel ≤ fuel' →
  loop fuel' g visitor md st = Some r.
Proof.
  revert fuel' st. induction fuel as [|fuel IH]; intros fuel' st Hl Hle.
  - destruct fuel'; simpl in *; destruct (stack st); done.
  - destruct fuel' as [|fuel']; [lia|].
    simpl in *. destruct (stack st); [done|].
    destruct (iter g visitor md st); [|done].
    apply IH; [done|lia].
Qed.

(** Whatever [step] preserves holds of the final state. *)
Lemma loop_invariant g visitor md (P : state → Prop) fuel st st' :
  (∀ s s', P s → step g visitor md s s' → P s') →
  P st → loop fuel g visitor md st = Some (Ok st') →
  P st' ∧ stack st' = [].
Proof.
  intros Hpres. revert st. induction fuel as [|fuel IH]; intros st HP Hl.
  - simpl in Hl. destruct (stack st) eqn:Hs; [|done].
    injection Hl as <-. done.
  - simpl in Hl. destruct (stack st) as [|x s] eqn:Hs.
    { injection Hl as <-. done. }
    destruct (iter g visitor md st) as [st1|] eqn:Hit; [|done].
    apply (IH st1); [|done].
    eapply Hpres; [done|]. apply iter_step; [by rewrite Hs|done].
Qed.

(** ** What the accumulator holds *)

Lemma handles_accepts g visitor md n distance depth pushed extra b :
  handles g visitor md n distance depth pushed extra (Some b) → visitor n = Ok b.
Proof. by inversion 1. Qed.

Lemma handles_accepts_kind g visitor md n distance depth pushed extra b :
  handles g visitor md n distance depth pushed extra (Some b) →
  is_Some (getattr g block_root n) ∨ output_variable g n = false.
Proof.
  inversion 1; subst; eauto.
  right. unfold output_variable.
  match goal with H : function_inputs g n = Some _ |- _ => rewrite H end.
  done.
Qed.

Lemma handles_silent g visitor md n distance depth pushed extra :
  handles g visitor md n distance depth pushed extra None →
  output_variable g n = true.
Proof.
  inversion 1; subst; apply output_variable_true_iff; eauto.
Qed.

Lemma accum_ok_init g visitor root : accum_ok g visitor (init root).
Proof.
  split; simpl; try (intros n Hn; by apply elem_of_nil in Hn). constructor.
Qed.

Lemma accum_ok_step g visitor md st st' :
  accum_ok g visitor st → step g visitor md st st' → accum_ok g visitor st'.
Proof.
  intros [Hv Hnd Ha Hk].
  destruct 1 as [n distance depth rest acc vis Hin|n distance depth rest acc vis pushed extra r Hn Hh];
    simpl in *; [by split|].
  destruct r as [[]|]; simpl; rewrite ?app_nil_r.
  - split; simpl; rewrite fmap_app; simpl.
    + intros x [Hx|Hx]%elem_of_app; [apply Hv in Hx; set_solver|].
      apply list_elem_of_singleton in Hx as ->. set_solver.
    + apply NoDup_app. split_and!; [done| |apply NoDup_singleton].
      intros x Hx Hx'. apply list_elem_of_singleton in Hx' as ->. by apply Hn, Hv.
    + intros x [Hx|Hx]%elem_of_app; [by apply Ha|].
      apply list_elem_of_singleton in Hx as ->. by eapply handles_accepts.
    + intros x [Hx|Hx]%elem_of_app; [by apply Hk|].
      apply list_elem_of_singleton in Hx as ->. by eapply handles_accepts_kind.
  - split; simpl; try done. intros x Hx. apply Hv in Hx. set_solver.
  - split; simpl; try done. intros x Hx. apply Hv in Hx. set_solver.
Qed.

(** ** Sorting by distance *)

Lemma insert_by_distance_perm x l : insert_by_distance x l ≡ₚ x :: l.
Proof.
  induction l as [|y l IH]; simpl; [done|].
  case_match; [done|]. rewrite IH. apply Permutation_swap.
Qed.

Lemma sort_by_distance_perm l : sort_by_distance l ≡ₚ l.
Proof.
  induction l as [|x l IH]; simpl; [done|].
  rewrite insert_by_distance_perm. by constructor.
Qed.

Lemma insert_by_distance_sorted x l :
  StronglySorted (λ a b : loc * nat, a.2 ≤ b.2) l →
  StronglySorted (λ a b : loc * nat, a.2 ≤ b.2) (insert_by_distance x l).
Proof.
  induction 1 as [|y l Hs IH Hall]; simpl.
  - repeat constructor.
  - destruct (x.2 <=? y.2) eqn:Hle.
    + apply Nat.leb_le in Hle. constructor; [by constructor|].
      constructor; [done|].
      eapply Forall_impl; [exact Hall|]. simpl. intros; lia.
    + apply Nat.leb_gt in Hle. constructor; [done|].
      rewrite insert_by_distance_perm. constructor; [lia|done].
Qed.

Lemma sort_by_distance_sorted l :
  StronglySorted (λ a b : loc * nat, a.2 ≤ b.2) (sort_by_distance l).
Proof.
  induction l as [|x l IH]; simpl; [constructor|].
  by apply insert_by_distance_sorted.
Qed.

Lemma elem_of_collect sort st n : n ∈ collect sort st ↔ n ∈ (accum st).*1.
Proof.
  unfold collect. destruct sort; [|done].
  by rewrite sort_by_distance_perm.
Qed.

Lemma collect_perm sort st : collect sort st ≡ₚ (accum st).*1.
Proof.
  unfold collect. destruct sort; [|done].
  by rewrite sort_by_distance_perm.
Qed.

(** ** The function as a whole *)

Lemma depth_first_search_Ok g root visitor md sort res :
  depth_first_search g root visitor md sort = Some (Ok res) ↔
  ∃ st, loop (fuel_for g root) g visitor md (init root) = Some (Ok st)
        ∧ res = collect sort st.
Proof.
  unfold depth_first_search, run.
  destruct (loop _ _ _ _ _) as [[st|e]|]; split.
  all: try done.
  all: try (intros [st' [? ?]]; done).
  - intros [= <-]. eauto.
  - intros [st' [[= <-] ->]]. done.
Qed.

Lemma depth_first_search_returns g root visitor md sort :
  is_Some (depth_first_search g root visitor md sort).
Proof.
  unfold depth_first_search, run.
  destruct (loop_terminates g visitor md (fuel_for g root) (init root)) as [r ->];
    [done|].
  destruct r; eauto.
Qed.

(** A visitor that never raises makes the function return a list. *)
Lemma depth_first_search_total g root (p : loc → bool) md sort :
  ∃ res, depth_first_search g root (λ n, Ok (p n)) md sort = Some (Ok res).
Proof.
  unfold depth_first_search, run.
  destruct (loop_terminates g (λ n, Ok (p n)) md (fuel_for g root) (init root))
    as [r Hr]; [done|].
  rewrite Hr. destruct r as [st|e]; [eauto|].
  exfalso. revert Hr. generalize (fuel_for g root) (init root).
  intros fuel. induction fuel as [|fuel IH]; intros st; simpl.
  - by destruct (stack st).
  - destruct (stack st) as [|[[n distance] depth] rest] eqn:Hs; [done|].
    destruct (iter g (λ n, Ok (p n)) md st) as [st1|e1] eqn:Hit; [apply IH|].
    exfalso. revert Hit. unfold iter. rewrite Hs.
    case_decide; [done|].
    unfold try_block, function_or_variable, finish, visit.
    repeat case_match; simplify_eq; done.
Qed.

(** ** What an iteration pushes *)

Lemma handles_successors g visitor md n distance depth pushed extra r n' :
  handles g visitor md n distance depth pushed extra r →
  n' ∈ successors g md n depth → n' ∈ pushed.*1.*1.
Proof.
  unfold successors, successors_at.
  destruct 1 as [c m b Hd Hc Hm _|ins b Hex Hf _|o Hex Hf Hio Ho|b Hex Hf Hov _
                |c m o e Hd Hc Hm _ _ _ _].
  - assert (expands g md n depth = true) as ->
      by (apply expands_true_iff; rewrite Hc, Hm; eauto).
    rewrite Hc, Hm. simpl. rewrite !fmap_app, <-!list_fmap_compose. simpl.
    done.
  - rewrite Hex, Hf. by rewrite <-!list_fmap_compose.
  - rewrite Hex, Hf.
    assert (output_variable g n = true) as ->
      by (apply output_variable_true_iff; rewrite Ho; eauto).
    rewrite Ho. done.
  - rewrite Hex, Hf, Hov. done.
  - assert (expands g md n depth = true) as ->
      by (apply expands_true_iff; rewrite Hc, Hm; eauto).
    rewrite Hc, Hm. simpl. rewrite !fmap_app, <-!list_fmap_compose. simpl.
    set_solver.
Qed.

Lemma loop_facts g visitor md root fuel st :
  loop fuel g visitor md (init root) = Some (Ok st) →
  accum_ok g visitor st ∧ stack st = [].
Proof.
  intros Hl.
  apply (loop_invariant g visitor md (accum_ok g visitor) fuel (init root) st);
    [|apply accum_ok_init|done].
  intros s s' ? ?. by eapply accum_ok_step.
Qed.

Example chain_all :
  depth_first_search Samples.chain 0 (λ _, Ok true) None false = Some (Ok [0; 4; 2; 3]).
Proof. vm_compute. reflexivity. Qed.

Example dense_all :
  depth_first_search Samples.dense 10 (λ _, Ok true) None false = Some (Ok [10; 11; 13]).
Proof. vm_compute. reflexivity. Qed.

Example dense_flat :
  depth_first_search Samples.dense 10 (λ _, Ok true) (Some 0%Z) false = Some (Ok [10; 13]).
Proof. vm_compute. reflexivity. Qed.

Example cyclic_all :
  depth_first_search Samples.cyclic 20 (λ _, Ok true) None false = Some (Ok [20; 22]).
Proof. vm_compute. reflexivity. Qed.

Example nested_limited :
  depth_first_search Samples.nested 29 (λ _, Ok true) (Some 1%Z) false
  = Some (Ok [29; 31; 33; 30]).
Proof. vm_compute. reflexivity. Qed.


Lemma distance_of_lookup (acc : list (loc * nat)) n d :
  NoDup acc.*1 → (n, d) ∈ acc → distance_of acc n = d.
Proof.
  induction acc as [|[m e] acc IH]; simpl; [by intros _ ?%elem_of_nil|].
  intros [Hm Hnd]%NoDup_cons [Heq|Hin]%elem_of_cons.
  - injection Heq as -> ->. by rewrite decide_True.
  - rewrite decide_False; [by apply IH|].
    intros ->. apply Hm. apply list_elem_of_fmap. by exists (n, d).
Qed.

Lemma iter_raises g visitor md st e :
  iter g visitor md st = Raise e → ∃ n, visitor n = Raise e.
Proof.
  unfold iter. destruct (stack st) as [|[[n distance] depth] rest]; [done|].
  case_decide; [done|].
  unfold try_block, function_or_variable, finish, visit.
  intros Hr. exists n. repeat case_match; simplify_eq; done.
Qed.

Lemma loop_raises g visitor md fuel st e :
  loop fuel g visitor md st = Some (Raise e) → ∃ n, visitor n = Raise e.
Proof.
  revert st. induction fuel as [|fuel IH]; intros st; simpl.
  - by destruct (stack st).
  - destruct (stack st); [done|].
    destruct (iter g visitor md st) as [st'|e'] eqn:Hit; [apply IH|].
    intros [= ->]. by eapply iter_raises.
Qed.

Lemma depth_first_search_raises g root visitor md sort e :
  depth_first_search g root visitor md sort = Some (Raise e) →
  ∃ n, visitor n = Raise e.
Proof.
  unfold depth_first_search, run.
  destruct (loop _ _ _ _ _) as [[st|e']|] eqn:Hl; try done.
  intros [= ->]. by eapply loop_raises.
Qed.

Lemma depth_allows_true md depth :
  depth_allows md depth = true ↔
  md = None ∨ ∃ k, md = Some k ∧ (Z.of_nat depth < k)%Z.
Proof.
  destruct md as [k|]; simpl; [|naive_solver].
  rewrite Z.ltb_lt. naive_solver.
Qed.

Lemma depth_allows_false md depth :
  depth_allows md depth = false ↔ ∃ k, md = Some k ∧ (k ≤ Z.of_nat depth)%Z.
Proof.
  destruct md as [k|]; simpl; [|naive_solver].
  rewrite Z.ltb_ge. naive_solver.
Qed.

(** ** The statements *)

(** C1, as stated, fails: in [Samples.chain] the output variable [1] is
    reachable from the root [0] and satisfies the always-true visitor, but is
    not returned. *)
Lemma depth_first_search_skips_reachable :
  depth_first_search Samples.chain 0 (λ _, Ok true) None false
    = Some (Ok [0; 4; 2; 3])
  ∧ reach_within Samples.chain None 0 1 0
  ∧ 1 ∉ [0; 4; 2; 3].
Proof.
  split_and!.
  - vm_compute. reflexivity.
  - eapply within_step; [apply within_root|].
    vm_compute. apply list_elem_of_here.
  - set_solver.
Qed.

(** C2.  On every (finite) object store, cyclic or not, the function
    terminates: the loop ends within [DFS.fuel_for] iterations and more
    iterations change nothing; and the returned list has no repetition. *)
Theorem depth_first_search_terminates g root visitor md sort :
  (∃ r, depth_first_search g root visitor md sort = Some r)
  ∧ (∀ fuel, fuel_for g root ≤ fuel →
       run fuel g root visitor md = run (fuel_for g root) g root visitor md)
  ∧ (∀ res, depth_first_search g root visitor md sort = Some (Ok res) → NoDup res).
Proof.
  split_and!.
  - apply depth_first_search_returns.
  - intros fuel Hle. unfold run.
    destruct (loop_terminates g visitor md (fuel_for g root) (init root)) as [r Hr];
      [done|].
    rewrite Hr. by eapply loop_fuel_mono.
  - intros res (st & Hl & ->)%depth_first_search_Ok.
    apply loop_facts in Hl as (Hacc & _).
    rewrite collect_perm. apply Hacc.
Qed.

(** C3.  A BlockFunction node popped unvisited at block depth [depth]: when
    [max_depth] is [None] or [depth < max_depth], its actual inputs are
    pushed at [distance + 1] and the same depth, the mapped composite inputs
    are marked visited and the composite root is pushed at [depth + 1]; when
    [max_depth <= depth], the inputs of its root function are pushed at the
    same depth, as for any function node. *)
Theorem block_function_step g visitor md n distance depth rest acc vis c m ins b :
  n ∉ vis →
  getattr g block_root n = Some c →
  getattr g block_arguments_mapping n = Some m →
  function_inputs g n = Some ins →
  visitor n = Ok b →
  ((md = None ∨ ∃ k, md = Some k ∧ (Z.of_nat depth < k)%Z) →
     iter g visitor md (State ((n, distance, depth) :: rest) acc vis)
     = Ok (State ((c, S distance, S depth)
                  :: reverse ((λ p, (p.2, S distance, depth)) <$> m) ++ rest)
             (acc ++ accepted n distance (Some b))
             ({[n]} ∪ (list_to_set (m.*1) ∪ vis))))
  ∧ ((∃ k, md = Some k ∧ (k ≤ Z.of_nat depth)%Z) →
     iter g visitor md (State ((n, distance, depth) :: rest) acc vis)
     = Ok (State (reverse ((λ i, (i, S distance, depth)) <$> ins) ++ rest)
             (acc ++ accepted n distance (Some b))
             ({[n]} ∪ vis))).
Proof.
  intros Hn Hc Hm Hf Hv. split.
  - intros Hd%depth_allows_true.
    unfold iter; simpl. rewrite decide_False by done.
    unfold try_block. rewrite Hd, Hc, Hm. unfold visit. rewrite Hv.
    destruct b; simpl; by rewrite ?app_nil_r.
  - intros Hd%depth_allows_false.
    unfold iter; simpl. rewrite decide_False by done.
    unfold try_block. rewrite Hd.
    unfold function_or_variable. rewrite Hf. unfold finish, visit. rewrite Hv.
    destruct b; simpl; by rewrite ?app_nil_r.
Qed.

Lemma block_function_step_witness :
  iter Samples.dense (λ _, Ok true) None (State [(10, 0, 0)] [] ∅)
  = Ok (State [(11, 1, 1); (13, 1, 0)] [(10, 0)] ({[10]} ∪ (list_to_set [12] ∪ ∅)))
  ∧ iter Samples.dense (λ _, Ok true) (Some 0%Z) (State [(10, 0, 0)] [] ∅)
  = Ok (State [(13, 1, 0)] [(10, 0)] ({[10]} ∪ ∅)).
Proof.
  split.
  - apply (block_function_step Samples.dense (λ _, Ok true) None 10 0 0 [] [] ∅
             11 [(12, 13)] [13] true); try reflexivity; [set_solver|by left].
  - apply (block_function_step Samples.dense (λ _, Ok true) (Some 0%Z) 10 0 0 [] [] ∅
             11 [(12, 13)] [13] true); try reflexivity; [set_solver|].
    exists 0%Z. split; [reflexivity|lia].
Defined.

(** C4.  With [sort_by_distance] the returned list is a rearrangement of the
    accepted nodes in non-decreasing order of the distance recorded when each
    was accepted; without it the accepted nodes are returned in the order of
    acceptance. *)
Theorem sort_by_distance_option g root visitor md st :
  run (fuel_for g root) g root visitor md = Some (Ok st) →
  depth_first_search g root visitor md false = Some (Ok (accum st).*1)
  ∧ ∃ res, depth_first_search g root visitor md true = Some (Ok res)
      ∧ res ≡ₚ (accum st).*1
      ∧ StronglySorted
          (λ a b, distance_of (accum st) a ≤ distance_of (accum st) b) res.
Proof.
  intros Hrun. unfold depth_first_search. rewrite Hrun.
  split; [done|]. eexists. split; [done|].
  split; [apply collect_perm|].
  apply loop_facts in Hrun as (Hacc & _).
  unfold collect.
  pose proof (sort_by_distance_sorted (accum st)) as Hs.
  pose proof (sort_by_distance_perm (accum st)) as Hp.
  assert (Hd : ∀ x, x ∈ sort_by_distance (accum st) →
                    distance_of (accum st) x.1 = x.2).
  { intros [n d] Hx. apply distance_of_lookup; [apply Hacc|]. by rewrite <-Hp. }
  revert Hs Hd. generalize (sort_by_distance (accum st)) as l.
  induction 1 as [|x l Hs IH Hall]; intros Hd; simpl; constructor.
  - apply IH. intros y Hy. apply Hd. by right.
  - apply Forall_fmap. rewrite Forall_forall in Hall. apply Forall_forall.
    intros y Hy. simpl. rewrite (Hd x), (Hd y); [|by right|by left].
    by apply Hall.
Qed.

Lemma sort_by_distance_option_witness :
  depth_first_search Samples.chain 0 (λ _, Ok true) None false
    = Some (Ok [0; 4; 2; 3])
  ∧ ∃ res, depth_first_search Samples.chain 0 (λ _, Ok true) None true = Some (Ok res)
      ∧ res ≡ₚ [0; 4; 2; 3]
      ∧ StronglySorted
          (λ a b, distance_of [(0, 0); (4, 1); (2, 2); (3, 3)] a
                  ≤ distance_of [(0, 0); (4, 1); (2, 2); (3, 3)] b) res.
Proof.
  apply (sort_by_distance_option Samples.chain 0 (λ _, Ok true) None
           (State [] [(0, 0); (4, 1); (2, 2); (3, 3)] (list_to_set [3; 2; 1; 4; 0]))).
  vm_compute. reflexivity.
Defined.

(** C5.  A node with none of the probed attributes, popped unvisited: the
    iteration raises only what the visitor raises; nothing is pushed; the
    node is marked visited and accepted according to the visitor. *)
Theorem attributeless_node_step g visitor md n distance depth rest acc vis :
  n ∉ vis →
  getattr g block_root n = None →
  getattr g block_arguments_mapping n = None →
  getattr g root_function n = None →
  getattr g is_output n = None →
  iter g visitor md (State ((n, distance, depth) :: rest) acc vis)
  = match visitor n with
    | Ok b => Ok (State rest (acc ++ accepted n distance (Some b)) ({[n]} ∪ vis))
    | Raise e => Raise e
    end.
Proof.
  intros Hn Hc Hm Hr Hio.
  unfold iter; simpl. rewrite decide_False by done.
  unfold try_block. rewrite Hc.
  assert (function_or_variable g visitor n distance depth
            (set_stack rest (State ((n, distance, depth) :: rest) acc vis))
          = match visitor n with
            | Ok b => Ok (State rest (acc ++ accepted n distance (Some b)) ({[n]} ∪ vis))
            | Raise e => Raise e
            end) as Hfov.
  { unfold function_or_variable, function_inputs. rewrite Hr, Hio. simpl.
    unfold finish, visit. destruct (visitor n) as [[]|]; simpl; by rewrite ?app_nil_r. }
  by destruct (depth_allows md depth).
Qed.

Lemma attributeless_node_step_witness :
  iter Samples.chain (λ _, Ok true) None (State [(7, 2, 0); (4, 1, 0)] [(0, 0)] {[0]})
  = Ok (State [(4, 1, 0)] ([(0, 0)] ++ [(7, 2)]) ({[7]} ∪ {[0]})).
Proof.
  apply (attributeless_node_step Samples.chain (λ _, Ok true) None 7 2 0
           [(4, 1, 0)] [(0, 0)] {[0]}); try reflexivity.
  set_solver.
Defined.

(** C10.  An output variable (no [block_root], no [root_function],
    [is_output] true, with an [owner]): popped unvisited, its owner is pushed
    in its place whatever the visitor is; it is in no list the function
    returns, and no name-lookup wrapper returns it. *)
Theorem output_variable_never_returned g n o :
  getattr g block_root n = None →
  getattr g root_function n = None →
  getattr g is_output n = Some true →
  getattr g owner n = Some o →
  (∀ visitor md distance depth rest acc vis, n ∉ vis →
     iter g visitor md (State ((n, distance, depth) :: rest) acc vis)
     = Ok (State ((o, S distance, depth) :: rest) acc ({[n]} ∪ vis)))
  ∧ (∀ root visitor md sort res,
       depth_first_search g root visitor md sort = Some (Ok res) → n ∉ res)
  ∧ (∀ root node_name md res,
       find_all_with_name g root node_name md = Some (Ok res) → n ∉ res)
  ∧ (∀ root node_name md, find_by_name g root node_name md ≠ Some (Ok (Some n)))
  ∧ (∀ root node_name md,
       try_find_closest_by_name g root node_name md ≠ Some (Ok (Some n))).
Proof.
  intros Hc Hr Hio Ho.
  assert (Hdfs : ∀ root visitor md sort res,
            depth_first_search g root visitor md sort = Some (Ok res) → n ∉ res).
  { intros root visitor md sort res (st & Hl & ->)%depth_first_search_Ok.
    apply loop_facts in Hl as (Hacc & _).
    intros Hn%elem_of_collect.
    destruct (accum_kind _ _ _ Hacc n Hn) as [[c Hc']|Hov]; [congruence|].
    assert (output_variable g n = true); [|congruence].
    apply output_variable_true_iff. unfold function_inputs. rewrite Hr. eauto. }
  split_and!; [|done|by eauto|..].
  - intros visitor md distance depth rest acc vis Hn.
    unfold iter; simpl. rewrite decide_False by done.
    unfold try_block. rewrite Hc.
    assert (function_or_variable g visitor n distance depth
              (set_stack rest (State ((n, distance, depth) :: rest) acc vis))
            = Ok (State ((o, S distance, depth) :: rest) acc ({[n]} ∪ vis))) as Hfov.
    { unfold function_or_variable, function_inputs. by rewrite Hr, Hio, Ho. }
    by destruct (depth_allows md depth).
  - intros root node_name md. unfold find_by_name.
    destruct (negb (is_str node_name)); [done|].
    destruct (depth_first_search _ _ _ _ _) as [[res|e]|] eqn:Hd; [|done..].
    apply Hdfs in Hd. destruct (1 <? length res); [done|].
    destruct res as [|x res]; [done|]. intros [= ->]. set_solver.
  - intros root node_name md. unfold try_find_closest_by_name.
    destruct (negb (is_str node_name)); [done|].
    destruct (depth_first_search _ _ _ _ _) as [[res|e]|] eqn:Hd; [|done..].
    apply Hdfs in Hd.
    destruct res as [|x res]; [done|]. intros [= ->]. set_solver.
Qed.

Lemma output_variable_never_returned_witness :
  find_all_with_name Samples.chain 0 (PyStr "h") None = Some (Ok [2])
  ∧ (1 ∉ [2])
  ∧ find_by_name Samples.chain 0 (PyStr "h") None ≠ Some (Ok (Some 1)).
Proof.
  destruct (output_variable_never_returned Samples.chain 1 2)
    as (_ & _ & Hall & Hone & _); try reflexivity.
  split_and!.
  - vm_compute. reflexivity.
  - apply (Hall 0 (PyStr "h") None). vm_compute. reflexivity.
  - apply Hone.
Defined.


End DFSFacts.

(** * Properties of [output_function_graph] *)

Module OFGFacts.
Import OFG Text Walk.

Lemma append_assoc (a b c : string) : (a +:+ b) +:+ c = a +:+ b +:+ c.
Proof.
  induction a as [|x a IH]; [done|].
  change (String x ((a +:+ b) +:+ c) = String x (a +:+ b +:+ c)). by f_equal.
Qed.

Lemma append_nil_r (a : string) : a +:+ "" = a.
Proof.
  induction a as [|x a IH]; [done|].
  change (String x (a +:+ "") = String x a). by f_equal.
Qed.

Lemma when_add_model b s st :
  when b (add_model s) st
  = (with_text st (model st +:+ (if b then s else "")) (dot_object st), Ok ()).
Proof.
  destruct b; simpl; [done|]. rewrite append_nil_r. by destruct st.
Qed.

(** The pydot calls made for a node [u] with an edge labelled by the shape
    of [c]. *)
Lemma when_add_edge g wtf (mk : string → dot_item) u c st :
  (wtf = true → is_Some (getattr g shape c)) →
  ∃ dot', when wtf (add_dot (DotNode u []);; sh ← attr g shape c; add_dot (mk sh)) st
          = (with_text st (model st) dot', Ok ())
          ∧ (wtf = false → dot' = dot_object st).
Proof.
  intros Hsh. destruct wtf; simpl.
  - destruct (Hsh eq_refl) as [sh Hs].
    eexists. split; [|intros; discriminate].
    unfold mbind, M_bind, attr. simpl. rewrite Hs. simpl. reflexivity.
  - exists (dot_object st). split; [by destruct st|done].
Qed.

(** The loop over the inputs appends their uids separated by [", "]. *)
Lemma add_inputs_ok g wtf cur len i children uids st :
  mapM (getattr g uid) children = Some uids →
  (wtf = true → Forall (λ c, is_Some (getattr g shape c)) children) →
  i + length children = len →
  ∃ dot', add_inputs g wtf cur len i children st
          = (with_text st (model st +:+ String.concat ", " uids) dot', Ok ())
          ∧ (wtf = false → dot' = dot_object st).
Proof.
  revert i uids st. induction children as [|c children IH]; intros i uids st Hm Hsh Hlen.
  - injection Hm as <-. exists (dot_object st). simpl. rewrite append_nil_r.
    by destruct st.
  - apply mapM_Some in Hm. inversion Hm as [|? u ? us Hu Hus]; subst uids.
    apply mapM_Some in Hus.
    assert (Hsh' : wtf = true → Forall (λ c, is_Some (getattr g shape c)) children).
    { intros Hw. specialize (Hsh Hw). by inversion Hsh. }
    assert (Hc : wtf = true → is_Some (getattr g shape c)).
    { intros Hw. specialize (Hsh Hw). by inversion Hsh. }
    cbn [add_inputs]. unfold mbind at 1, M_bind at 1, attr at 1. rewrite Hu.
    unfold mret at 1, M_ret at 1. unfold mbind at 1, M_bind at 1, add_model at 1.
    unfold mbind at 1, M_bind at 1. rewrite when_add_model.
    unfold mbind at 1, M_bind at 1.
    match goal with
    | |- context [when wtf _ ?s] =>
        destruct (when_add_edge g wtf (DotEdge u cur) u c s Hc) as (dot1 & -> & Hdot1)
    end.
    simpl in Hlen.
    edestruct (IH (S i) us) as (dot' & -> & Hdot'); [done|done|lia|].
    exists dot'. split.
    + unfold with_text; simpl. do 2 f_equal.
      rewrite !append_assoc. f_equal.
      apply length_mapM in Hus.
      destruct children as [|c' children]; destruct us as [|u' us]; try done; simpl in *.
      * replace (len - 1) with i by lia. rewrite Nat.eqb_refl. simpl.
        by rewrite !append_nil_r.
      * assert ((i =? len - 1) = false) as -> by (apply Nat.eqb_neq; lia). done.
    + intros Hw. simpl in Hdot'. rewrite Hdot', Hdot1 by done. done.
Qed.


Lemma bind_ok {A B} (m : M A) (k : A → M B) st st' a :
  m st = (st', Ok a) → (m ≫= k) st = k a st'.
Proof. intros H. unfold mbind, M_bind. by rewrite H. Qed.

Lemma attr_some {A} g (f : obj → option A) n a st :
  getattr g f n = Some a → attr g f n st = (st, Ok a).
Proof. intros H. unfold attr. by rewrite H. Qed.

Lemma attr_none {A} g (f : obj → option A) n st :
  getattr g f n = None → attr g f n st = (st, Raise AttributeError).
Proof. intros H. unfold attr. by rewrite H. Qed.

Lemma function_ok_line g wtf n :
  function_ok g wtf n = true →
  getattr g root_function n = Some n
  ∧ ∃ op ins uids out ou,
      getattr g op_name n = Some op ∧ getattr g inputs n = Some ins
      ∧ mapM (getattr g uid) ins = Some uids
      ∧ first_output g n = Some out ∧ getattr g uid out = Some ou
      ∧ line g n = Some (op +:+ "(" +:+ String.concat ", " uids +:+ ") -> " +:+ ou)
      ∧ (wtf = true →
           is_Some (getattr g uid n)
           ∧ Forall (λ c, is_Some (getattr g shape c)) ins
           ∧ is_Some (getattr g shape out)).
Proof.
  unfold function_ok. rewrite !andb_true_iff, !bool_decide_eq_true.
  intros [[Hr [l Hl]] Hw]. split; [done|].
  unfold line in *.
  destruct (getattr g op_name n) as [op|] eqn:Hop; [|done].
  destruct (getattr g inputs n) as [ins|] eqn:Hins; [|done]. simpl in *.
  destruct (mapM (getattr g uid) ins) as [uids|] eqn:Hu; [|done]. simpl in *.
  destruct (first_output g n) as [out|] eqn:Hout; [|done]. simpl in *.
  destruct (getattr g uid out) as [ou|] eqn:Hou; [|done]. simpl in *.
  exists op, ins, uids, out, ou. split_and!; try done.
  intros ->. simpl in Hw.
  rewrite !andb_true_iff, !bool_decide_eq_true in Hw.
  destruct Hw as [[? Hf] ?]. split_and!; try done.
  apply Forall_forall. intros c Hc.
  rewrite forallb_forall in Hf. apply list_elem_of_In in Hc.
  apply Hf in Hc. by apply bool_decide_eq_true in Hc.
Qed.

Local Ltac run :=
  erewrite bind_ok by (first [reflexivity | by apply attr_some]);
  cbn [node stack accum visited model dot_object].

(** The body of the [try] on a node whose root function [r] is well formed:
    the inputs of [r] are pushed and its line is appended to the text. *)
Lemma function_node_ok g wtf st r :
  getattr g root_function (node st) = Some r →
  function_ok g wtf r = true →
  ∃ ins l dot',
    getattr g inputs r = Some ins ∧ line g r = Some l
    ∧ function_node g wtf st
      = (State r (reverse ins ++ stack st) (accum st) (visited st)
           (model st +:+ l +:+ nl) dot', Ok ())
    ∧ (wtf = false → dot' = dot_object st).
Proof.
  destruct st as [n stk acc vis mdl dot]. cbn [node stack accum visited model dot_object].
  intros Hn (Hr & op & ins & uids & out & ou & Hop & Hins & Hu & Hout & Hou & Hl & Hw)%function_ok_line.
  exists ins, (op +:+ "(" +:+ String.concat ", " uids +:+ ") -> " +:+ ou).
  unfold function_node. do 7 run.
  unfold first_output in Hout.
  destruct (getattr g outputs r) as [outs|] eqn:Houts; [|done].
  simpl in Hout. destruct outs as [|out' outs]; [done|]. injection Hout as ->.
  destruct wtf.
  - destruct (Hw eq_refl) as ([u Hu'] & Hsh & Hso).
    erewrite bind_ok.
    2:{ do 2 run. reflexivity. }
    match goal with
    | |- context [add_inputs g true ?cur ?len 0 ins ≫= ?k] =>
        edestruct (add_inputs_ok g true cur len 0 ins uids) as (dot1 & Hrun & _);
          [done|done|done|]
    end.
    erewrite bind_ok by apply Hrun.
    unfold with_text. cbn [node stack accum visited model dot_object].
    do 4 run.
    edestruct (when_add_edge g true) as (dot2 & -> & _); [done|].
    unfold with_text. cbn [node stack accum visited model dot_object].
    eexists. split_and!; [done|done| |intros; discriminate].
    do 2 f_equal. by rewrite !append_assoc.
  - run.
    edestruct (add_inputs_ok g false "" (length ins) 0 ins uids) as (dot1 & Hrun & Hd1);
      [done|done|done|].
    erewrite bind_ok by apply Hrun.
    unfold with_text. cbn [node stack accum visited model dot_object].
    do 4 run.
    exists dot1. split_and!; [done|done| |by auto].
    simpl. do 2 f_equal. by rewrite !append_assoc.
Qed.

Lemma node_ok_root_ok g wtf n : node_ok g wtf n = true → root_ok g wtf n = true.
Proof.
  unfold node_ok, root_ok, is_function.
  destruct (getattr g root_function n) as [r|] eqn:Hr; [|done].
  rewrite bool_decide_eq_true_2 by eauto. simpl. intros Hok.
  pose proof Hok as [Hself _]%function_ok_line. congruence.
Qed.

Lemma well_formed_inputs g wtf r ins :
  well_formed g wtf → getattr g inputs r = Some ins →
  Forall (λ n, node_ok g wtf n = true) ins.
Proof.
  intros Hwf. unfold getattr. destruct (g !! r) as [o|] eqn:Hg; [|done].
  simpl. intros Hins. pose proof (Hwf r o Hg) as [Hi _]%andb_true_iff.
  rewrite Hins in Hi. simpl in Hi. apply Forall_forall. intros n Hn.
  rewrite forallb_forall in Hi. apply Hi. by apply list_elem_of_In.
Qed.

Lemma well_formed_owner g wtf n o :
  well_formed g wtf → getattr g owner n = Some o → node_ok g wtf o = true.
Proof.
  intros Hwf. unfold getattr. destruct (g !! n) as [x|] eqn:Hg; [|done].
  simpl. intros Ho. pose proof (Hwf n x Hg) as [_ Hi]%andb_true_iff.
  by rewrite Ho in Hi.
Qed.

(** An iteration on a node that is [root_ok] never raises, and is a
    [step]. *)
Lemma export_iter_step g wtf st :
  Forall (λ n, root_ok g wtf n = true) (stack st) → stack st ≠ [] →
  ∃ st', iter g wtf st = (st', Ok ()) ∧ step g wtf st st'.
Proof.
  destruct st as [nd [|n rest] acc vis mdl dot]; [done|].
  cbn [stack]. intros [Hok _]%Forall_cons _.
  unfold iter. cbn [node stack accum visited model dot_object].
  destruct (decide (n ∈ vis)) as [Hin|Hin].
  { eexists. split; [done|]. by constructor. }
  unfold handle. unfold root_ok in Hok.
  destruct (getattr g root_function n) as [r|] eqn:Hr.
  - destruct (function_node_ok g wtf (State n rest acc vis mdl dot) r Hr Hok)
      as (ins & l & dot' & Hins & Hl & Hrun & Hdot).
    cbn [node stack accum visited model dot_object] in *.
    eexists. split.
    + erewrite bind_ok; [|unfold except_attribute_error; by rewrite Hrun].
      do 2 run. reflexivity.
    + apply function_ok_line in Hok as [Hself _].
      by eapply step_function.
  - assert (Hrun : except_attribute_error (function_node g wtf) (output_variable g)
                     (State n rest acc vis mdl dot)
                   = (State n (reverse (owner_of g n) ++ rest) acc vis mdl dot, Ok ())).
    { unfold except_attribute_error, function_node.
      erewrite bind_ok by reflexivity.
      unfold mbind at 1, M_bind at 1.
      cbn [node stack accum visited model dot_object].
      rewrite attr_none by done.
      unfold output_variable, owner_of. cbn [node stack accum visited model dot_object].
      destruct (getattr g is_output n) as [[]|]; try reflexivity.
      destruct (getattr g owner n) as [o|]; reflexivity. }
    eexists. split.
    + erewrite bind_ok by exact Hrun. do 2 run. reflexivity.
    + by constructor.
Qed.

(** What is pushed is an input or an owner, hence a variable or a
    well-formed function node. *)
Lemma step_stack g wtf (Q : loc → Prop) st st' :
  well_formed g wtf → (∀ n, node_ok g wtf n = true → Q n) →
  step g wtf st st' → Forall Q (stack st) → Forall Q (stack st').
Proof.
  intros Hwf HQ.
  destruct 1 as [n nd rest acc vis mdl dot Hin
                |n r nd rest acc vis mdl dot ins l dot' Hn Hr Hrr Hins Hl Hdot
                |n nd rest acc vis mdl dot Hn Hr];
    cbn [stack]; intros [_ Hrest]%Forall_cons; [done|..].
  - apply Forall_app. split; [|done]. apply Forall_reverse.
    eapply Forall_impl; [by eapply well_formed_inputs|]. done.
  - apply Forall_app. split; [|done]. apply Forall_reverse.
    unfold owner_of. destruct (getattr g is_output n) as [[]|]; try constructor.
    destruct (getattr g owner n) as [o|] eqn:Ho; constructor; [|constructor].
    apply HQ. by eapply well_formed_owner.
Qed.

Lemma export_loop_fuel_mono g wtf fuel fuel' st r :
  loop fuel g wtf st = Some r → fuel ≤ fuel' → loop fuel' g wtf st = Some r.
Proof.
  revert fuel' st. induction fuel as [|fuel IH]; intros fuel' st Hl Hle.
  - destruct fuel'; simpl in *; destruct (stack st); done.
  - destruct fuel' as [|fuel']; [lia|].
    simpl in *. destruct (stack st); [done|].
    destruct (iter g wtf st) as [st' [[]|e]]; [|done].
    apply IH; [done|lia].
Qed.

(** On a well-formed graph the loop never raises, and whatever [step]
    preserves holds of the final state. *)
Lemma export_loop_invariant g wtf (P : state → Prop) fuel st st' r :
  well_formed g wtf →
  (∀ s s', P s → step g wtf s s' → P s') →
  P st → Forall (λ n, root_ok g wtf n = true) (stack st) →
  loop fuel g wtf st = Some (st', r) →
  P st' ∧ r = Ok () ∧ stack st' = [].
Proof.
  intros Hwf Hpres. revert st. induction fuel as [|fuel IH]; intros st HP Hok Hl.
  - simpl in Hl. destruct (stack st) eqn:Hs; [|done].
    by injection Hl as <- <-.
  - simpl in Hl. destruct (stack st) as [|x s] eqn:Hs.
    { by injection Hl as <- <-. }
    destruct (export_iter_step g wtf st) as (st1 & Hit & Hstep); [by rewrite Hs|by rewrite Hs|].
    rewrite Hit in Hl. apply (IH st1); [by eapply Hpres| |done].
    eapply step_stack; [done|apply node_ok_root_ok|done|by rewrite Hs].
Qed.

(** ** The text accumulated *)

Lemma text_of_app ls l : text_of (ls ++ [l]) = text_of ls +:+ l +:+ nl.
Proof.
  induction ls as [|x ls IH]; simpl.
  - by rewrite append_nil_r.
  - rewrite IH. by rewrite !append_assoc.
Qed.

Lemma model_step g wtf st st' :
  step g wtf st st' →
  model st = text_of (lines_of g (accum st)) →
  model st' = text_of (lines_of g (accum st')).
Proof.
  destruct 1 as [n nd rest acc vis mdl dot Hin
                |n r nd rest acc vis mdl dot ins l dot' Hn Hr Hrr Hins Hl Hdot
                |n nd rest acc vis mdl dot Hn Hr];
    cbn [model accum]; intros ->; [done|..].
  - unfold lines_of. rewrite filter_app, fmap_app.
    rewrite filter_cons_True, filter_nil
      by (unfold is_function; rewrite Hrr; by apply bool_decide_eq_true).
    simpl. rewrite Hl. simpl. by rewrite text_of_app.
  - unfold lines_of. rewrite filter_app.
    rewrite filter_cons_False, filter_nil, app_nil_r; [done|].
    unfold is_function. rewrite Hr. rewrite bool_decide_eq_true.
    intros [? ?]; done.
Qed.

Lemma split_lines_line l s :
  newline_free l → split_lines (l +:+ nl +:+ s) = l :: split_lines s.
Proof.
  induction l as [|c l IH]; intros Hl.
  - done.
  - destruct Hl as [Hc Hl].
    change (String c l +:+ nl +:+ s) with (String c (l +:+ nl +:+ s)).
    cbn [split_lines]. rewrite IH by done.
    destruct (Ascii.eqb_spec c "010"); done.
Qed.

Lemma split_lines_text ls :
  Forall newline_free ls → split_lines (text_of ls) = ls ++ [""].
Proof.
  induction 1 as [|l ls Hl _ IH]; simpl; [done|].
  by rewrite split_lines_line, IH.
Qed.

(** The reversed lines of a text of newline-free lines: an empty first line
    (the text ends with a newline), then the lines, last one first. *)
Lemma reversed_lines_text ls :
  Forall newline_free ls →
  reversed_lines (text_of ls) = String.concat nl ("" :: reverse ls).
Proof.
  intros Hls. unfold reversed_lines.
  by rewrite split_lines_text, reverse_app.
Qed.

End OFGFacts.

(** * The two traversals side by side *)

Module Agreement.
Import OFG Text Walk.

Lemma try_block_skipped g visitor md n distance depth st :
  Search.expands g md n depth = false →
  DFS.try_block g visitor md n distance depth st = inr st.
Proof.
  intros [Hd|[Hc|Hm]]%DFSFacts.expands_false_iff; unfold DFS.try_block.
  - by rewrite Hd.
  - rewrite Hc. by destruct (DFS.depth_allows md depth).
  - rewrite Hm. by destruct (DFS.depth_allows md depth), (getattr g block_root n).
Qed.

Lemma block_free_expands g md n d :
  block_free g → Search.expands g md n d = false.
Proof.
  intros Hbf. apply DFSFacts.expands_false_iff. right; left.
  unfold getattr. destruct (g !! n) as [o|] eqn:Hg; [|done].
  simpl. by apply (Hbf n o).
Qed.

Lemma depth_zero_expands g n d : Search.expands g (Some 0%Z) n d = false.
Proof.
  apply DFSFacts.expands_false_iff. left. simpl. apply Z.ltb_ge. lia.
Qed.

Lemma related_init g root : related g (init root) (DFS.init root).
Proof. done. Qed.

(** An iteration of [output_function_graph] is matched by one of
    [depth_first_search] when no block is expanded. *)
Lemma simulation g wtf md os os' ds :
  (∀ n d, Search.expands g md n d = false) →
  Forall (λ n, node_ok g wtf n = true) (stack os) →
  related g os ds → step g wtf os os' →
  ∃ ds', DFS.iter g (λ _, Ok true) md ds = Ok ds' ∧ related g os' ds'.
Proof.
  intros Hex Hok (Hs & Hv & Ha) Hstep.
  destruct ds as [dstack dacc dvis].
  destruct Hstep as [n nd rest acc vis mdl dot Hin
                    |n r nd rest acc vis mdl dot ins l dot' Hn Hr Hrr Hins Hl Hdot
                    |n nd rest acc vis mdl dot Hn Hr];
    cbn [stack visited accum DFS.stack DFS.visited DFS.accum] in *; subst dvis;
    destruct dstack as [|[[n' distance] depth] drest]; try done;
    injection Hs as -> Hs; change (drest.*1.*1 = rest) in Hs; subst rest;
    unfold DFS.iter; cbn [DFS.stack DFS.visited].
  - rewrite decide_True by done. eexists. split; [done|]. done.
  - assert (r = n) as ->.
    { apply Forall_cons in Hok as [Hok _]. unfold node_ok, is_function in Hok.
      rewrite Hr in Hok. rewrite bool_decide_eq_true_2 in Hok by eauto.
      simpl in Hok. apply OFGFacts.function_ok_line in Hok as [Hself _]. congruence. }
    rewrite decide_False by done.
    rewrite try_block_skipped by done.
    assert (Hfi : DFS.function_inputs g n = Some ins).
    { unfold DFS.function_inputs. rewrite Hr. simpl. done. }
    unfold DFS.function_or_variable. rewrite Hfi.
    eexists. split; [done|].
    split_and!; simpl.
    + rewrite !fmap_app, !fmap_reverse. f_equal. f_equal.
      rewrite <-!list_fmap_compose. by rewrite list_fmap_id.
    + done.
    + rewrite fmap_app, filter_app, Ha. f_equal.
      rewrite filter_cons_True, filter_nil; [done|].
      unfold Search.output_variable. by rewrite Hfi.
  - rewrite decide_False by done.
    rewrite try_block_skipped by done.
    assert (Hfi : DFS.function_inputs g n = None).
    { unfold DFS.function_inputs. by rewrite Hr. }
    unfold DFS.function_or_variable. rewrite Hfi. unfold owner_of.
    destruct (getattr g is_output n) as [[]|] eqn:Hio.
    1: destruct (getattr g owner n) as [o|] eqn:Ho.
    + eexists. split; [done|]. split_and!; simpl; [done|done|].
      rewrite filter_app, filter_cons_False, filter_nil, app_nil_r; [done|].
      intros Hov. apply not_true_iff_false in Hov. apply Hov.
      apply DFSFacts.output_variable_true_iff. rewrite Ho. eauto.
    + eexists. split; [done|]. split_and!; simpl; [done|done|].
      rewrite fmap_app, filter_app, Ha. f_equal.
      rewrite filter_cons_True, filter_nil; [done|].
      unfold Search.output_variable. rewrite Ho. simpl.
      by rewrite andb_false_r.
    + eexists. split; [done|]. split_and!; simpl; [done|done|].
      rewrite fmap_app, filter_app, Ha. f_equal.
      rewrite filter_cons_True, filter_nil; [done|].
      unfold Search.output_variable. rewrite Hio. simpl.
      by rewrite andb_false_r.
    + eexists. split; [done|]. split_and!; simpl; [done|done|].
      rewrite fmap_app, filter_app, Ha. f_equal.
      rewrite filter_cons_True, filter_nil; [done|].
      unfold Search.output_variable. rewrite Hio. simpl.
      by rewrite andb_false_r.
Qed.

(** The two loops run in lockstep. *)
Lemma lockstep g wtf md fuel os ds :
  well_formed g wtf →
  (∀ n d, Search.expands g md n d = false) →
  Forall (λ n, node_ok g wtf n = true) (stack os) →
  related g os ds →
  match loop fuel g wtf os, DFS.loop fuel g (λ _, Ok true) md ds with
  | Some (os', Ok _), Some (Ok ds') => related g os' ds'
  | None, None => True
  | _, _ => False
  end.
Proof.
  intros Hwf Hex. revert os ds. induction fuel as [|fuel IH]; intros os ds Hok Hrel.
  - simpl. pose proof Hrel as (Hs & ? & ?).
    destruct (stack os) eqn:Hos, (DFS.stack ds) eqn:Hds; try done.
  - simpl. pose proof Hrel as (Hs & ? & ?).
    destruct (stack os) as [|n rest] eqn:Hos, (DFS.stack ds) as [|x drest] eqn:Hds;
      try done.
    rewrite <-Hos in Hok.
    destruct (OFGFacts.export_iter_step g wtf os) as (os1 & -> & Hstep);
      [by eapply Forall_impl; [done|apply OFGFacts.node_ok_root_ok]|by rewrite Hos|].
    destruct (simulation g wtf md os os1 ds Hex Hok Hrel Hstep) as (ds1 & -> & Hrel1).
    apply IH; [|done].
    eapply OFGFacts.step_stack; [done| |done|done]. done.
Qed.

(** On a well-formed graph the export's traversal ends within the
    iterations that [depth_first_search] needs, without raising. *)
Lemma traverse_returns g wtf md root fuel :
  well_formed g wtf →
  node_ok g wtf root = true →
  (∀ n d, Search.expands g md n d = false) →
  DFS.fuel_for g root ≤ fuel →
  ∃ os ds, traverse fuel g wtf root = Some (os, Ok ())
         ∧ DFS.run (DFS.fuel_for g root) g root (λ _, Ok true) md = Some (Ok ds)
         ∧ related g os ds.
Proof.
  intros Hwf Hroot Hex Hfuel.
  assert (Hok : Forall (λ n, node_ok g wtf n = true) (stack (init root)))
    by (by repeat constructor).
  pose proof (lockstep g wtf md (DFS.fuel_for g root) (init root) (DFS.init root)
                Hwf Hex Hok (related_init g root)) as Hls.
  destruct (DFSFacts.loop_terminates g (λ _, Ok true) md (DFS.fuel_for g root)
              (DFS.init root)) as [r Hr]; [done|].
  rewrite Hr in Hls.
  destruct (loop (DFS.fuel_for g root) g wtf (init root)) as [[os [[]|e]]|] eqn:Hl;
    try done.
  destruct r as [ds|e]; [|done].
  exists os, ds. split_and!; [|done|done].
  unfold traverse. by eapply OFGFacts.export_loop_fuel_mono.
Qed.

(** C6, as amended.  On a graph without block composites whose function
    nodes, the root included, are well formed and their own root function,
    [depth_first_search] with the always-true visitor and no depth limit
    returns, in the same order, the nodes that the traversal of
    [output_function_graph] collects and that are not output variables. *)
Theorem traversals_agree g root wtf fuel :
  block_free g → well_formed g wtf → node_ok g wtf root = true →
  DFS.fuel_for g root ≤ fuel →
  ∃ st res,
    traverse fuel g wtf root = Some (st, Ok ())
    ∧ depth_first_search g root (λ _, Ok true) None false = Some (Ok res)
    ∧ res = filter (λ n, Search.output_variable g n = false) (accum st)
    ∧ ∀ n, n ∈ res ↔ n ∈ accum st ∧ Search.output_variable g n = false.
Proof.
  intros Hbf Hwf Hroot Hfuel.
  destruct (traverse_returns g wtf None root fuel Hwf Hroot)
    as (os & ds & Ht & Hd & Hrel); [intros; by apply block_free_expands|done|].
  destruct Hrel as (_ & _ & Ha).
  exists os, (DFS.accum ds).*1. split_and!; [done| |done|].
  - unfold depth_first_search. by rewrite Hd.
  - intros n. rewrite Ha, list_elem_of_filter. tauto.
Qed.

Lemma chain_block_free : block_free Samples.chain.
Proof. unfold block_free. apply (bool_decide_unpack _). vm_compute. exact I. Qed.

Lemma chain_well_formed wtf : well_formed Samples.chain wtf.
Proof.
  unfold well_formed. destruct wtf; apply (bool_decide_unpack _); vm_compute; exact I.
Qed.

Lemma traversals_agree_witness :
  ∃ st res,
    traverse 20 Samples.chain false 0 = Some (st, Ok ())
    ∧ depth_first_search Samples.chain 0 (λ _, Ok true) None false = Some (Ok res)
    ∧ res = filter (λ n, Search.output_variable Samples.chain n = false) (accum st)
    ∧ ∀ n, n ∈ res ↔ n ∈ accum st ∧ Search.output_variable Samples.chain n = false.
Proof.
  apply (traversals_agree Samples.chain 0 false 20).
  - apply chain_block_free.
  - apply chain_well_formed.
  - vm_compute. reflexivity.
  - vm_compute. lia.
Defined.

(** C6, as stated, fails: on [Samples.chain], which has no block, the export
    collects the output variable [1], which [depth_first_search] does not
    return. *)
Lemma traversals_differ :
  block_free Samples.chain
  ∧ (λ r, accum r.1) <$> traverse 20 Samples.chain false 0 = Some [0; 4; 1; 2; 3]
  ∧ depth_first_search Samples.chain 0 (λ _, Ok true) None false
    = Some (Ok [0; 4; 2; 3])
  ∧ 1 ∈ [0; 4; 1; 2; 3] ∧ 1 ∉ [0; 4; 2; 3].
Proof.
  split_and!.
  - apply chain_block_free.
  - vm_compute. reflexivity.
  - vm_compute. reflexivity.
  - set_solver.
  - set_solver.
Qed.

End Agreement.

(** * The export as a whole *)

Module ExportFacts.
Import OFG Text Walk.

Lemma lines_step g wtf st st' :
  step g wtf st st' →
  (∀ n, n ∈ accum st → is_function g n = true → is_Some (line g n)) →
  ∀ n, n ∈ accum st' → is_function g n = true → is_Some (line g n).
Proof.
  destruct 1 as [n nd rest acc vis mdl dot Hin
                |n r nd rest acc vis mdl dot ins l dot' Hn Hr Hrr Hins Hl Hdot
                |n nd rest acc vis mdl dot Hn Hr];
    cbn [accum]; intros IH x; [by apply IH|..].
  - intros [Hx|Hx]%elem_of_app; [by apply IH|].
    apply list_elem_of_singleton in Hx as ->. rewrite Hl. eauto.
  - intros [Hx|Hx]%elem_of_app; [by apply IH|].
    apply list_elem_of_singleton in Hx as ->.
    unfold is_function. rewrite Hr, bool_decide_eq_true. by intros [? ?].
Qed.

(** Starting from a composite function is starting from its root function:
    the first iteration replaces the one by the other. *)
Lemma traverse_root_function g wtf root r fuel :
  getattr g root_function root = Some r →
  getattr g root_function r = Some r →
  traverse fuel g wtf root = traverse fuel g wtf r.
Proof.
  intros Hr Hrr. unfold traverse. destruct fuel as [|fuel]; [done|].
  cbn [loop init stack].
  assert (iter g wtf (init root) = iter g wtf (init r)) as ->; [|done].
  unfold iter, init. cbn [stack visited accum model dot_object].
  rewrite !decide_False by set_solver.
  unfold handle, except_attribute_error.
  assert (function_node g wtf (State root [] [] ∅ "" [])
          = function_node g wtf (State r [] [] ∅ "" [])) as Hfn.
  { unfold function_node.
    rewrite (OFGFacts.bind_ok get_node _ (State root [] [] ∅ "" [])
               (State root [] [] ∅ "" []) root) by reflexivity.
    rewrite (OFGFacts.bind_ok get_node _ (State r [] [] ∅ "" [])
               (State r [] [] ∅ "" []) r) by reflexivity.
    rewrite (OFGFacts.bind_ok (attr g root_function root) _ (State root [] [] ∅ "" [])
               (State root [] [] ∅ "" []) r) by (by apply OFGFacts.attr_some).
    rewrite (OFGFacts.bind_ok (attr g root_function r) _ (State r [] [] ∅ "" [])
               (State r [] [] ∅ "" []) r) by (by apply OFGFacts.attr_some).
    rewrite (OFGFacts.bind_ok (set_node r) _ (State root [] [] ∅ "" [])
               (State r [] [] ∅ "" []) ()) by reflexivity.
    rewrite (OFGFacts.bind_ok (set_node r) _ (State r [] [] ∅ "" [])
               (State r [] [] ∅ "" []) ()) by reflexivity.
    reflexivity. }
  unfold mbind at 1 3, M_bind at 1 3. by rewrite Hfn.
Qed.

Example ofg_chain :
  output_function_graph 100 false Samples.chain 0 (Paths None None None None)
  = Some ([], Ok (nl +:+ "Times(Parameter1) -> Times3_Output_0" +:+ nl
                  +:+ "Plus(Times3_Output_0, Parameter2) -> Plus7_Output_0")).
Proof. vm_compute. reflexivity. Qed.

Example ofg_chain_accum :
  (λ r, accum r.1) <$> traverse 100 Samples.chain false 0 = Some [0; 4; 1; 2; 3].
Proof. vm_compute. reflexivity. Qed.

Example export_from_composite :
  output_function_graph 20 false Samples.chain 6 (Paths None None None None)
  = Some ([], Ok (String.concat nl
                    [""; "Times(Parameter1) -> Times3_Output_0";
                     "Plus(Times3_Output_0, Parameter2) -> Plus7_Output_0"])).
Proof. vm_compute. reflexivity. Qed.

Lemma elem_of_write format path content x :
  x ∈ write format path content ↔
  ∃ s, path = Some s ∧ s ≠ "" ∧ x = Write format s content.
Proof.
  unfold write, truthy. destruct path as [s|]; simpl.
  - destruct (String.eqb_spec s ""); simpl.
    + split; [by intros ?%elem_of_nil|]. intros (s' & [= <-] & ? & _). done.
    + rewrite list_elem_of_singleton. split; [by eauto|].
      by intros (s' & [= <-] & _ & ->).
  - split; [by intros ?%elem_of_nil|]. by intros (s' & ? & _).
Qed.

Lemma elem_of_writes p content x :
  x ∈ writes p content ↔
  ∃ format s, s ≠ "" ∧ x = Write format s content
    ∧ ((format = "svg" ∧ svg_file_path p = Some s)
       ∨ (format = "pdf" ∧ pdf_file_path p = Some s)
       ∨ (format = "png" ∧ png_file_path p = Some s)
       ∨ (format = "dot" ∧ dot_file_path p = Some s)).
Proof.
  unfold writes. rewrite !elem_of_app, !elem_of_write. split.
  - intros [(s & ? & ? & ->)|[(s & ? & ? & ->)|[(s & ? & ? & ->)|(s & ? & ? & ->)]]];
      eexists _, s; naive_solver.
  - intros (format & s & ? & -> & [[-> ?]|[[-> ?]|[[-> ?]|[-> ?]]]]); naive_solver.
Qed.

Lemma write_to_file_false p :
  write_to_file p = false → ∀ content, writes p content = [].
Proof.
  unfold write_to_file, writes, write.
  destruct p as [[] [] [] []]; simpl; try done.
Qed.

(** C8, as stated, fails: an empty [dot_file_path] is not [None], so the
    package is imported, but no file is written. *)
Lemma empty_path_not_written :
  dot_file_path (Paths (Some "") None None None) ≠ None
  ∧ output_function_graph 20 true Samples.chain 0 (Paths (Some "") None None None)
    = Some ([ImportPydot],
            Ok (String.concat nl
                  [""; "Times(Parameter1) -> Times3_Output_0";
                   "Plus(Times3_Output_0, Parameter2) -> Plus7_Output_0"])).
Proof.
  split; [done|]. vm_compute. reflexivity.
Qed.

End ExportFacts.

(** * Further properties of the search and of the name lookups *)

Module Lookup.
Import DFS Search Paths DFSFacts.

Lemma sort_by_distance_head (x : loc * nat) l :
  x.2 = 0 → head (sort_by_distance (x :: l)) = Some x.
Proof.
  intros Hx. simpl. destruct (sort_by_distance l) as [|y l']; simpl; [done|].
  rewrite Hx. done.
Qed.

Lemma sort_by_distance_short l : length l ≤ 1 → sort_by_distance l = l.
Proof. destruct l as [|x [|y l]]; simpl; [done|done|lia]. Qed.

Lemma run_accum_sorted_head g root visitor md fuel st x res :
  loop fuel g visitor md (init root) = Some (Ok st) →
  collect true st = x :: res →
  x ∈ (accum st).*1
  ∧ ∀ y, y ∈ (accum st).*1 → distance_of (accum st) x ≤ distance_of (accum st) y.
Proof.
  intros Hl Hc. apply loop_facts in Hl as (Hacc & _).
  unfold collect in Hc.
  pose proof (sort_by_distance_sorted (accum st)) as Hs.
  pose proof (sort_by_distance_perm (accum st)) as Hp.
  destruct (sort_by_distance (accum st)) as [|[x' d] l] eqn:Hsort; [done|].
  simpl in Hc. injection Hc as -> <-.
  assert (Hd : ∀ n e, (n, e) ∈ (x, d) :: l → distance_of (accum st) n = e).
  { intros n e Hin. apply distance_of_lookup; [apply Hacc|]. by rewrite <-Hp. }
  split.
  - rewrite <-Hp. simpl. left.
  - intros y [[y' e] [-> Hy]]%list_elem_of_fmap. simpl.
    rewrite <-Hp in Hy. rewrite (Hd x d) by left. rewrite (Hd y' e) by done.
    apply StronglySorted_inv in Hs as [_ Hall].
    apply elem_of_cons in Hy as [[= -> ->]|Hy]; [done|].
    rewrite Forall_forall in Hall. by apply (Hall (y', e)).
Qed.

(** [try_find_closest_by_name] raises [ValueError] exactly when [node_name]
    is not a string, also when several nodes match; when it returns a node,
    the node has the searched name and no accepted node was recorded at a
    smaller distance; it returns [None] exactly when no node was accepted;
    and it always terminates. *)
Theorem try_find_closest_by_name_outcome g node node_name md :
  (try_find_closest_by_name g node node_name md = Some (Raise ValueError) ↔
     is_str node_name = false)
  ∧ (∀ r, try_find_closest_by_name g node node_name md = Some (Ok r) →
       ∃ s st, node_name = PyStr s
         ∧ run (fuel_for g node) g node (name_is g node_name) md = Some (Ok st)
         ∧ match r with
           | None => accum st = []
           | Some x =>
               x ∈ (accum st).*1 ∧ getattr g name x = Some s
               ∧ ∀ y, y ∈ (accum st).*1 →
                      distance_of (accum st) x ≤ distance_of (accum st) y
           end)
  ∧ is_Some (try_find_closest_by_name g node node_name md).
Proof.
  unfold try_find_closest_by_name.
  destruct node_name as [s| |]; simpl; try (split_and!; [done|done|eauto]).
  pose proof (depth_first_search_returns g node (name_is g (PyStr s)) md true)
    as [r Hr].
  rewrite Hr. destruct r as [res|e].
  - pose proof Hr as (st & Hl & ->)%depth_first_search_Ok.
    split_and!.
    + split; [|done]. by destruct (collect true st).
    + intros r Hret. exists s, st. split; [done|]. split; [done|].
      destruct (collect true st) as [|x res] eqn:Hc.
      * injection Hret as <-.
        pose proof (collect_perm true st) as Hp. rewrite Hc in Hp.
        apply Permutation_nil in Hp.
        by destruct (accum st).
      * injection Hret as <-.
        destruct (run_accum_sorted_head _ _ _ _ _ _ _ _ Hl Hc) as [Hx Hmin].
        split_and!; [done| |done].
        apply loop_facts in Hl as (Hacc & _).
        apply (accum_accepted _ _ _ Hacc) in Hx. unfold name_is in Hx.
        destruct (getattr g name x) as [s'|]; [|done].
        injection Hx as Hx. by apply bool_decide_eq_true in Hx as ->.
    + destruct (collect true st); eauto.
  - split_and!; [|done|eauto].
    split; [|done].
    intros [= ->]. apply depth_first_search_raises in Hr as [n Hn].
    unfold name_is in Hn. by destruct (getattr g name n).
Qed.

(** Whatever [find_by_name] returns, [try_find_closest_by_name] returns
    too. *)
Theorem find_by_name_is_closest g node node_name md r :
  find_by_name g node node_name md = Some (Ok r) →
  try_find_closest_by_name g node node_name md = Some (Ok r).
Proof.
  unfold find_by_name, try_find_closest_by_name, depth_first_search.
  destruct (negb (is_str node_name)); [done|].
  destruct (run _ _ _ _ _) as [[st|e]|]; [|done..].
  destruct (1 <? length (collect false st)) eqn:Hlen; [done|].
  apply Nat.ltb_ge in Hlen.
  assert (collect true st = collect false st) as ->; [|done].
  unfold collect in *. rewrite length_fmap in Hlen.
  by rewrite sort_by_distance_short.
Qed.

Lemma find_by_name_is_closest_witness :
  try_find_closest_by_name Samples.chain 0 (PyStr "w") None = Some (Ok (Some 3)).
Proof.
  apply (find_by_name_is_closest Samples.chain 0 (PyStr "w") None (Some 3)).
  vm_compute. reflexivity.
Defined.


Lemma handles_root_accepted g visitor md n distance depth pushed extra r :
  visitor n = Ok true → output_variable g n = false →
  handles g visitor md n distance depth pushed extra r → r = Some true.
Proof.
  intros Hv Hov. destruct 1 as [c m b _ _ _ Hb|ins b _ _ Hb|o _ Hf Hio Ho|b _ _ _ Hb
                               |c m o e _ _ _ He _ _ _]; try congruence.
  assert (output_variable g n = true); [|congruence].
  apply output_variable_true_iff. rewrite Ho. eauto.
Qed.

Lemma head_is_root g root visitor md sort res :
  depth_first_search g root visitor md sort = Some (Ok res) →
  visitor root = Ok true → output_variable g root = false →
  head res = Some root.
Proof.
  intros (st & Hl & ->)%depth_first_search_Ok Hv Hov.
  destruct (loop_invariant g visitor md
              (λ s, s = init root ∨ head (accum s) = Some (root, 0))
              (fuel_for g root) (init root) st) as [[->|Hhead] Hs]; try done.
  - intros s s' [->|Hhead] Hstep; right.
    + inversion Hstep as [|n distance depth rest acc vis pushed extra r Hn Hh];
        subst; [set_solver|].
      by rewrite (handles_root_accepted _ _ _ _ _ _ _ _ _ Hv Hov Hh).
    + destruct Hstep as [|n distance depth rest acc vis pushed extra r Hn Hh];
        simpl in *; [done|].
      destruct acc; [done|]. done.
  - by left.
  - unfold collect. destruct (accum st) as [|[n d] acc] eqn:Hacc; [done|].
    simpl in Hhead. injection Hhead as -> ->.
    destruct sort; [|done].
    pose proof (sort_by_distance_head (root, 0) acc eq_refl) as Hh.
    destruct (sort_by_distance ((root, 0) :: acc)); [done|].
    simpl in *. by injection Hh as ->.
Qed.

(** When the visitor accepts the start node, and the start node is not an
    output variable, the returned list begins with the start node, sorted by
    distance or not. *)
Theorem root_is_first g root visitor md sort res :
  depth_first_search g root visitor md sort = Some (Ok res) →
  visitor root = Ok true → output_variable g root = false →
  head res = Some root.
Proof. apply head_is_root. Qed.

Lemma root_is_first_witness :
  depth_first_search Samples.chain 0 (λ _, Ok true) None true = Some (Ok [0; 4; 2; 3])
  ∧ head [0; 4; 2; 3] = Some 0.
Proof.
  split; [vm_compute; reflexivity|].
  apply (root_is_first Samples.chain 0 (λ _, Ok true) None true [0; 4; 2; 3]);
    vm_compute; reflexivity.
Defined.

(** [try_find_closest_by_name] returns the start node itself when the start
    node has the searched name and is not an output variable. *)
Theorem closest_is_start_node g node s md r :
  try_find_closest_by_name g node (PyStr s) md = Some (Ok r) →
  getattr g name node = Some s → output_variable g node = false →
  r = Some node.
Proof.
  unfold try_find_closest_by_name. simpl.
  destruct (depth_first_search _ _ _ _ _) as [[res|e]|] eqn:Hd; [|done..].
  intros Hr Hname Hov.
  apply head_is_root in Hd; [|unfold name_is; rewrite Hname;
                               by rewrite bool_decide_eq_true_2|done].
  destruct res as [|x res]; [done|]. simpl in Hd. congruence.
Qed.

Lemma closest_is_start_node_witness :
  try_find_closest_by_name Samples.chain 2 (PyStr "h") None = Some (Ok (Some 2))
  ∧ Some 2 = Some 2.
Proof.
  split; [vm_compute; reflexivity|].
  apply (closest_is_start_node Samples.chain 2 "h" None (Some 2));
    vm_compute; reflexivity.
Defined.

(** On a graph without block composites the depth limit has no effect. *)
Theorem max_depth_irrelevant g root visitor md md' sort :
  Text.block_free g →
  depth_first_search g root visitor md sort
  = depth_first_search g root visitor md' sort.
Proof.
  intros Hbf.
  assert (Hiter : ∀ st, iter g visitor md st = iter g visitor md' st).
  { intros st. unfold iter. destruct (stack st) as [|[[n distance] depth] rest]; [done|].
    case_decide; [done|].
    by rewrite !Agreement.try_block_skipped by (by apply Agreement.block_free_expands). }
  assert (Hloop : ∀ fuel st, loop fuel g visitor md st = loop fuel g visitor md' st).
  { induction fuel as [|fuel IH]; intros st; simpl; [done|].
    destruct (stack st); [done|]. rewrite Hiter.
    destruct (iter g visitor md' st); [apply IH|done]. }
  unfold depth_first_search, run. by rewrite Hloop.
Qed.

Lemma max_depth_irrelevant_witness :
  depth_first_search Samples.chain 0 (λ _, Ok true) None false
  = depth_first_search Samples.chain 0 (λ _, Ok true) (Some 0%Z) false.
Proof.
  apply (max_depth_irrelevant Samples.chain 0 (λ _, Ok true) None (Some 0%Z) false).
  apply Agreement.chain_block_free.
Defined.



Lemma iter_raises_top g visitor md st e :
  iter g visitor md st = Raise e →
  ∃ n distance depth rest,
    stack st = (n, distance, depth) :: rest ∧ visitor n = Raise e.
Proof.
  unfold iter. destruct (stack st) as [|[[n distance] depth] rest]; [done|].
  case_decide; [done|].
  unfold try_block, function_or_variable, finish, visit.
  intros Hr. exists n, distance, depth, rest. split; [done|].
  repeat case_match; simplify_eq; done.
Qed.

Lemma getattr_Some {A} (g : graph) (f : obj → option A) n a :
  getattr g f n = Some a → ∃ o, g !! n = Some o ∧ f o = Some a.
Proof.
  unfold getattr. destruct (g !! n) as [o|]; [|done]. simpl. eauto.
Qed.

Lemma references_named_inv g n o :
  references_named g → g !! n = Some o →
  Forall (λ x, named g x = true) (default [] (inputs o))
  ∧ from_option (named g) true (owner o) = true
  ∧ from_option (named g) true (block_root o) = true
  ∧ Forall (λ x, named g x = true) (default [] (block_arguments_mapping o)).*2.
Proof.
  intros Hg Ho. specialize (Hg n o Ho). simpl in Hg.
  rewrite !andb_true_iff in Hg. destruct Hg as [[[Hi Hw] Hc] Hm].
  split_and!; try done.
  - apply Forall_forall. intros x Hx. rewrite forallb_forall in Hi.
    apply Hi. by apply list_elem_of_In.
  - apply Forall_forall. intros x Hx. rewrite forallb_forall in Hm.
    apply Hm. by apply list_elem_of_In.
Qed.

Lemma handles_pushed_named g visitor md n distance depth pushed extra r :
  references_named g →
  handles g visitor md n distance depth pushed extra r →
  Forall (λ x : loc * nat * nat, named g x.1.1 = true) pushed.
Proof.
  intros Hg.
  assert (Hblock : ∀ c m,
            getattr g block_root n = Some c →
            getattr g block_arguments_mapping n = Some m →
            Forall (λ x : loc * nat * nat, named g x.1.1 = true)
              (((λ p : loc * loc, (p.2, S distance, depth)) <$> m)
               ++ [(c, S distance, S depth)])).
  { intros c m (o & Ho & Hc)%getattr_Some (o' & Ho' & Hm)%getattr_Some.
    simplify_eq.
    destruct (references_named_inv g n o Hg Ho) as (_ & _ & Hcn & Hmn).
    rewrite Hc in Hcn. rewrite Hm in Hmn. simpl in *.
    apply Forall_app. split; [|by repeat constructor].
    apply Forall_fmap. apply Forall_fmap in Hmn.
    eapply Forall_impl; [exact Hmn|]. done. }
  assert (Howner : ∀ o, getattr g owner n = Some o → named g o = true).
  { intros o (x & Hx & Ho)%getattr_Some.
    destruct (references_named_inv g n x Hg Hx) as (_ & Hon & _).
    by rewrite Ho in Hon. }
  destruct 1 as [c m b _ Hc Hm _|ins b _ Hf _|o _ _ _ Ho|b|c m o e _ Hc Hm _ _ _ Ho].
  - by apply Hblock.
  - unfold function_inputs in Hf.
    destruct (getattr g root_function n) as [rf|]; [|done]. simpl in Hf.
    apply getattr_Some in Hf as (o & Ho & Hi).
    destruct (references_named_inv g rf o Hg Ho) as (Hin & _).
    rewrite Hi in Hin. simpl in Hin.
    apply Forall_fmap. eapply Forall_impl; [exact Hin|]. done.
  - repeat constructor. by apply Howner.
  - constructor.
  - rewrite app_assoc. apply Forall_app. split; [by apply Hblock|].
    repeat constructor. by apply Howner.
Qed.

Lemma loop_named g node_name md fuel st e :
  references_named g →
  Forall (λ x : loc * nat * nat, named g x.1.1 = true) (stack st) →
  loop fuel g (name_is g node_name) md st ≠ Some (Raise e).
Proof.
  intros Hg. revert st. induction fuel as [|fuel IH]; intros st Hst; simpl.
  - by destruct (stack st).
  - destruct (stack st) as [|x rest] eqn:Hs; [done|].
    destruct (iter g (name_is g node_name) md st) as [st'|e'] eqn:Hit.
    + apply IH. apply iter_step in Hit; [|by rewrite Hs].
      destruct Hit as [n distance depth rest' acc vis Hin
                      |n distance depth rest' acc vis pushed extra r Hn Hh];
        simpl in *; simplify_eq; apply Forall_cons in Hst as [_ Hrest]; [done|].
      apply Forall_app. split; [|done]. apply Forall_reverse.
      by eapply handles_pushed_named.
    + apply iter_raises_top in Hit as (n & distance & depth & rest' & Hs' & Hn).
      rewrite Hs in Hs'. injection Hs' as ->.
      apply Forall_cons in Hst as [Hnamed _].
      unfold named in Hnamed. apply bool_decide_eq_true in Hnamed as [s Hname].
      unfold name_is in Hn. simpl in *. by rewrite Hname in Hn.
Qed.

(** When the start node and every node that an object refers to have a
    name, [find_all_with_name] returns a list, and neither [find_by_name] nor
    [try_find_closest_by_name] raises [AttributeError]. *)
Theorem named_graph_never_raises g root node_name md :
  references_named g → named g root = true →
  (∃ res, find_all_with_name g root node_name md = Some (Ok res))
  ∧ find_by_name g root node_name md ≠ Some (Raise AttributeError)
  ∧ try_find_closest_by_name g root node_name md ≠ Some (Raise AttributeError).
Proof.
  intros Hg Hroot.
  assert (Hdfs : ∀ sort, ∃ res,
            depth_first_search g root (name_is g node_name) md sort = Some (Ok res)).
  { intros sort. unfold depth_first_search, run.
    destruct (loop_terminates g (name_is g node_name) md (fuel_for g root) (init root))
      as [r Hr]; [done|].
    rewrite Hr. destruct r as [st|e]; [eauto|].
    exfalso. revert Hr. apply loop_named; [done|]. by repeat constructor. }
  split_and!.
  - apply Hdfs.
  - unfold find_by_name. destruct (negb (is_str node_name)); [done|].
    destruct (Hdfs false) as [res ->].
    destruct (1 <? length res); [done|]. by destruct res.
  - unfold try_find_closest_by_name. destruct (negb (is_str node_name)); [done|].
    destruct (Hdfs true) as [res ->]. by destruct res.
Qed.

Lemma chain_references_named : references_named Samples.chain.
Proof. unfold references_named. apply (bool_decide_unpack _). vm_compute. exact I. Qed.

Lemma named_graph_never_raises_witness :
  (∃ res, find_all_with_name Samples.chain 0 (PyStr "h") None = Some (Ok res))
  ∧ find_by_name Samples.chain 0 (PyStr "h") None ≠ Some (Raise AttributeError)
  ∧ try_find_closest_by_name Samples.chain 0 (PyStr "h") None
    ≠ Some (Raise AttributeError).
Proof.
  apply (named_graph_never_raises Samples.chain 0 (PyStr "h") None).
  - apply chain_references_named.
  - vm_compute. reflexivity.
Defined.

End Lookup.

(** * Recorded distances and block depths *)

Module Distances.
Import DFS Search Paths DFSFacts.

Lemma successors_at_depth g md n d n' d' :
  (n', d') ∈ successors_at g md n d →
  d' = d ∨ (d' = S d ∧ depth_allows md d = true).
Proof.
  unfold successors_at. destruct (expands g md n d) eqn:Hex.
  - apply expands_true_iff in Hex as (Hd & _ & _).
    intros [Hin|Hin]%elem_of_app.
    + apply list_elem_of_fmap in Hin as (p & [= -> ->] & _). by left.
    + apply list_elem_of_fmap in Hin as (c & [= -> ->] & _). by right.
  - intros (i & [= -> ->] & _)%list_elem_of_fmap. by left.
Qed.

Lemma reached_depth g md root n distance depth :
  reached g md root n distance depth →
  depth ≤ distance
  ∧ ∀ m, md = Some m → (0 ≤ m)%Z → (Z.of_nat depth ≤ m)%Z.
Proof.
  induction 1 as [|n distance depth n' depth' _ [IH1 IH2] Hin].
  - split; [done|]. intros; lia.
  - apply successors_at_depth in Hin as [->|[-> Hd]].
    + split; [lia|done].
    + split; [lia|]. intros m -> Hm. simpl in Hd.
      apply Z.ltb_lt in Hd. lia.
Qed.

(** What a visitor that does not raise makes the loop push are the
    successors of the node, one step further from the root. *)
Lemma handles_pushed_successors g (p : loc → bool) md n distance depth pushed extra r x :
  handles g (λ n, Ok (p n)) md n distance depth pushed extra r →
  x ∈ pushed →
  x.1.2 = S distance ∧ (x.1.1, x.2) ∈ successors_at g md n depth.
Proof.
  unfold successors_at.
  destruct 1 as [c m b Hd Hc Hm _|ins b Hex Hf _|o Hex Hf Hio Ho|b|c m o e _ _ _ He _ _ _];
    try done.
  - assert (expands g md n depth = true) as ->
      by (apply expands_true_iff; rewrite Hc, Hm; eauto).
    rewrite Hc, Hm. simpl.
    intros [Hin|Hin]%elem_of_app.
    + apply list_elem_of_fmap in Hin as (q & -> & Hq). simpl. split; [done|].
      apply elem_of_app. left. apply list_elem_of_fmap. by exists q.
    + apply list_elem_of_singleton in Hin as ->. simpl. split; [done|].
      apply elem_of_app. right. left.
  - rewrite Hex, Hf. intros (i & -> & Hi)%list_elem_of_fmap. simpl.
    split; [done|]. apply list_elem_of_fmap. by exists i.
  - rewrite Hex, Hf.
    assert (output_variable g n = true) as ->
      by (apply output_variable_true_iff; rewrite Ho; eauto).
    rewrite Ho. intros ->%list_elem_of_singleton. simpl. split; [done|]. left.
  - by intros ?%elem_of_nil.
Qed.

(** Every node is accepted at a distance that is the length of a path of
    traversal steps from the root; the block depth along that path is at
    most the distance, and at most [max_depth] when that is a non-negative
    integer. *)
Theorem recorded_distance_is_a_path g root (p : loc → bool) md :
  ∃ st, run (fuel_for g root) g root (λ n, Ok (p n)) md = Some (Ok st)
    ∧ ∀ n distance, (n, distance) ∈ accum st →
        ∃ depth, reached g md root n distance depth
          ∧ depth ≤ distance
          ∧ ∀ m, md = Some m → (0 ≤ m)%Z → (Z.of_nat depth ≤ m)%Z.
Proof.
  destruct (depth_first_search_total g root p md false) as [res Hres].
  apply depth_first_search_Ok in Hres as (st & Hl & _).
  exists st. split; [done|].
  destruct (loop_invariant g (λ n, Ok (p n)) md
              (λ s, (∀ n distance depth, (n, distance, depth) ∈ stack s →
                       reached g md root n distance depth)
                    ∧ (∀ n distance, (n, distance) ∈ accum s →
                       ∃ depth, reached g md root n distance depth))
              (fuel_for g root) (init root) st) as [[_ Hacc] _]; try done.
  - intros s s' [Hst Hac] Hstep.
    destruct Hstep as [n distance depth rest acc vis Hin
                      |n distance depth rest acc vis pushed extra r Hn Hh];
      simpl in *.
    + split; [|done]. intros n' distance' depth' Hx. apply Hst. by right.
    + assert (Hnode : reached g md root n distance depth) by (apply Hst; left).
      split.
      * intros n' distance' depth' [Hx|Hx]%elem_of_app; [|apply Hst; by right].
        rewrite elem_of_reverse in Hx.
        destruct (handles_pushed_successors _ _ _ _ _ _ _ _ _ _ Hh Hx) as [Hd Hs].
        simpl in *. subst distance'. by eapply reached_step.
      * intros n' distance' [Hx|Hx]%elem_of_app; [by apply Hac|].
        destruct r as [[]|]; simpl in Hx; try by apply elem_of_nil in Hx.
        apply list_elem_of_singleton in Hx as [= -> ->]. eauto.
  - split.
    + intros n distance depth [= -> -> ->]%list_elem_of_singleton. constructor.
    + intros n distance Hx. by apply elem_of_nil in Hx.
  - intros n distance Hx. destruct (Hacc n distance Hx) as [depth Hr].
    exists depth. split; [done|]. by eapply reached_depth.
Qed.

End Distances.

(** * What the search returns *)

Module Completeness.
Import DFS Search Limit DFSFacts.

Lemma successors_stable g md n d1 d2 :
  expands g md n d1 = expands g md n d2 →
  successors g md n d1 = successors g md n d2.
Proof.
  unfold successors, successors_at. intros ->.
  destruct (expands g md n d2).
  - rewrite !fmap_app, <-!list_fmap_compose. done.
  - rewrite <-!list_fmap_compose. done.
Qed.

Lemma depth_stable_unlimited g root n d : depth_stable g None root n d.
Proof. intros d' _. done. Qed.

Lemma depth_stable_not_block g md root n d :
  getattr g block_root n = None → depth_stable g md root n d.
Proof.
  intros Hc d' _. unfold expands. rewrite Hc.
  rewrite !bool_decide_eq_false_2 by (by intros [? ?]).
  by rewrite !andb_false_r.
Qed.

Lemma handled_at_step g visitor md st st' n d :
  handled_at g visitor md st n d → step g visitor md st st' →
  handled_at g visitor md st' n d.
Proof.
  unfold handled_at, decided.
  intros (Hv & Hc & Hd).
  destruct 1 as [x distance depth rest acc vis Hin|x distance depth rest acc vis pushed extra r Hx Hh];
    simpl in *.
  - split_and!; [done| |done].
    intros n' Hn'. destruct (Hc n' Hn') as [?|Hs]; [by left|].
    apply elem_of_cons in Hs as [->|Hs]; auto.
  - split_and!; [set_solver| |].
    + intros n' Hn'.
      destruct (Hc n' Hn') as [?|Hs]; [left; set_solver|].
      apply elem_of_cons in Hs as [->|Hs]; [left; set_solver|].
      right. rewrite !fmap_app. set_solver.
    + destruct Hd as [?|[?|?]]; [by left|by right; left|].
      right; right. rewrite fmap_app. set_solver.
Qed.

Lemma handled_at_new g visitor md n distance depth rest acc vis pushed extra r :
  handles g visitor md n distance depth pushed extra r →
  handled_at g visitor md
    (State (reverse pushed ++ rest) (acc ++ accepted n distance r)
       ({[n]} ∪ (list_to_set extra ∪ vis))) n depth.
Proof.
  intros Hh. unfold handled_at, decided. split_and!; simpl; [set_solver| |].
  - intros n' Hn'. right.
    eapply handles_successors in Hn'; [|done].
    rewrite !fmap_app, !fmap_reverse. set_solver.
  - destruct r as [[]|]; simpl.
    + right; right. rewrite fmap_app. set_solver.
    + right; left. apply handles_accepts in Hh. congruence.
    + left. by eapply handles_silent.
Qed.

Lemma handles_extra_mapped g visitor md root n distance depth pushed extra r f :
  handles g visitor md n distance depth pushed extra r →
  reach_within g md root n depth → f ∈ extra → mapped_away g md root f.
Proof.
  intros Hh Hn Hf.
  destruct Hh as [c m b Hd Hc Hm _| | | |c m o e Hd Hc Hm _ _ _ _];
    try (by apply elem_of_nil in Hf);
    (exists n, depth, m; split_and!; [done| |done|done]);
    apply expands_true_iff; rewrite Hc, Hm; eauto.
Qed.

Lemma limit_ok_init g visitor md root : limit_ok g visitor md root (init root).
Proof.
  split; simpl.
  - intros n distance d [= -> _ ->]%list_elem_of_singleton. constructor.
  - by left.
  - set_solver.
Qed.

Lemma limit_ok_step g (p : loc → bool) md root st st' :
  limit_ok g (λ n, Ok (p n)) md root st → step g (λ n, Ok (p n)) md st st' →
  limit_ok g (λ n, Ok (p n)) md root st'.
Proof.
  intros [Hst Hr Hv] Hstep. split.
  - destruct Hstep as [n distance depth rest acc vis Hin
                      |n distance depth rest acc vis pushed extra r Hn Hh];
      simpl in *.
    + intros n' distance' d' Hx. eapply Hst. by right.
    + intros n' distance' d' [Hx|Hx]%elem_of_app; [|eapply Hst; by right].
      rewrite elem_of_reverse in Hx.
      destruct (Distances.handles_pushed_successors _ _ _ _ _ _ _ _ _ _ Hh Hx)
        as [_ Hs]. simpl in Hs.
      eapply within_step; [|exact Hs]. eapply Hst. left.
  - right. destruct Hr as [->|Hr]; [|by eapply handled_at_step].
    inversion Hstep; subst; [set_solver|]. by eapply handled_at_new.
  - intros x Hx.
    destruct (decide (x ∈ visited st)) as [Hold|Hnew].
    { destruct (Hv x Hold) as [?|(d & ? & ?)]; [by left|].
      right. exists d. split; [done|]. by eapply handled_at_step. }
    destruct Hstep as [y distance depth rest acc vis Hin
                      |y distance depth rest acc vis pushed extra r Hy Hh];
      simpl in *; [done|].
    assert (Hreach : reach_within g md root y depth) by (eapply Hst; left).
    destruct (decide (x = y)) as [->|Hne].
    + right. exists depth. split; [done|]. by eapply handled_at_new.
    + left. eapply handles_extra_mapped; [done|done|]. set_solver.
Qed.

(** At the end every node of [reach_limited] has been handled, at a depth at
    which it can be reached. *)
Lemma reach_limited_handled g visitor md root st n d :
  limit_ok g visitor md root st → stack st = [] →
  reach_limited g md root n d →
  ∃ d0, reach_within g md root n d0 ∧ handled_at g visitor md st n d0.
Proof.
  intros [Hst Hr Hv] Hs.
  assert (Hroot : handled_at g visitor md st root 0).
  { destruct Hr as [->|?]; done. }
  induction 1 as [|n d n' d' _ IH Hstable Hin Hmapped].
  - exists 0. split; [constructor|done].
  - assert (Hvis : n' ∈ visited st).
    { assert (Hn' : n' ∈ successors g md n d).
      { unfold successors. apply list_elem_of_fmap. by exists (n', d'). }
      destruct Hstable as [[-> ->]|Hstable].
      - destruct Hroot as (_ & Hc & _).
        destruct (Hc n' Hn') as [?|Hx]; [done|].
        rewrite Hs in Hx. by apply elem_of_nil in Hx.
      - destruct IH as (d0 & Hd0 & _ & Hc & _).
        rewrite <-(successors_stable g md n d0 d) in Hn' by (by apply Hstable).
        destruct (Hc n' Hn') as [?|Hx]; [done|].
        rewrite Hs in Hx. by apply elem_of_nil in Hx. }
    destruct (Hv n' Hvis) as [?|?]; done.
Qed.

(** Without a depth limit, when no block maps a composite input away,
    every node reachable is reachable in the restricted sense. *)
Lemma reach_within_limited g root n d :
  (∀ f, ¬ mapped_away g None root f) →
  reach_within g None root n d → reach_limited g None root n d.
Proof.
  intros Hm. induction 1 as [|n d n' d' _ IH Hn'].
  - apply limited_root.
  - eapply limited_step; [exact IH|right; apply depth_stable_unlimited|done|apply Hm].
Qed.

(** C1, as amended.  For a visitor that is a predicate, the function returns
    a list; every element of it satisfies the visitor; and the list contains
    every node that satisfies the visitor, is not an output variable, and is
    reachable from the root within the depth limit along a path that enters
    no composite input mapped away by a block, and on which each node after
    the root is treated alike by the depth limit at all the depths at which
    it can be reached (which is so for every node when [max_depth] is
    [None], and for every node that is not a block). *)
Theorem depth_first_search_sound_complete g root (p : loc → bool) md sort :
  ∃ res, depth_first_search g root (λ n, Ok (p n)) md sort = Some (Ok res)
    ∧ (∀ n, n ∈ res → p n = true)
    ∧ (∀ n d, reach_limited g md root n d → output_variable g n = false →
              p n = true → n ∈ res).
Proof.
  destruct (depth_first_search_total g root p md sort) as [res Hres].
  exists res. split; [done|].
  apply depth_first_search_Ok in Hres as (st & Hl & ->).
  destruct (loop_invariant g (λ n, Ok (p n)) md
              (λ s, accum_ok g (λ n, Ok (p n)) s ∧ limit_ok g (λ n, Ok (p n)) md root s)
              (fuel_for g root) (init root) st) as [[Hacc Hlim] Hs]; try done.
  { intros s s' [? ?] ?. split; [by eapply accum_ok_step|by eapply limit_ok_step]. }
  { split; [apply accum_ok_init|apply limit_ok_init]. }
  split.
  - intros n Hn%elem_of_collect.
    apply (accum_accepted _ _ _ Hacc) in Hn. congruence.
  - intros n d Hn Hov Hp. apply elem_of_collect.
    destruct (reach_limited_handled _ _ _ _ _ _ _ Hlim Hs Hn)
      as (d0 & _ & _ & _ & [?|[Hd|?]]); [congruence| |done].
    by rewrite Hp in Hd.
Qed.

Lemma not_mapped_away (g : graph) md root f :
  map_Forall (λ _ o, f ∉ (default [] (block_arguments_mapping o)).*1) g →
  ¬ mapped_away g md root f.
Proof.
  intros Hg (b & d & m & _ & _ & Hm & Hf). unfold getattr in Hm.
  destruct (g !! b) as [o|] eqn:Hb; [|done]. simpl in Hm.
  apply (Hg b o Hb). by rewrite Hm.
Qed.

(** With [max_depth = 1] the composite root [11] of the block [10] of
    [Samples.dense] and its actual input [13] are returned; without a limit,
    [32] in [Samples.nested], two blocks deep. *)
Lemma depth_first_search_sound_complete_witness :
  (∃ res, depth_first_search Samples.dense 10 (λ _, Ok true) (Some 1%Z) false
          = Some (Ok res) ∧ 11 ∈ res ∧ 13 ∈ res)
  ∧ (∃ res, depth_first_search Samples.nested 29 (λ _, Ok true) None false
            = Some (Ok res) ∧ 32 ∈ res).
Proof.
  split.
  - destruct (depth_first_search_sound_complete Samples.dense 10 (λ _, true)
                (Some 1%Z) false) as (res & Hres & _ & Hall).
    exists res. split; [exact Hres|].
    split; [apply (Hall 11 1)|apply (Hall 13 0)]; try reflexivity.
    + eapply limited_step; [apply limited_root|by left| |].
      * vm_compute. set_solver.
      * apply not_mapped_away, (bool_decide_unpack _). vm_compute. exact I.
    + eapply limited_step; [apply limited_root|by left| |].
      * vm_compute. set_solver.
      * apply not_mapped_away, (bool_decide_unpack _). vm_compute. exact I.
  - destruct (depth_first_search_sound_complete Samples.nested 29 (λ _, true)
                None false) as (res & Hres & _ & Hall).
    exists res. split; [exact Hres|].
    apply (Hall 32 1); try reflexivity.
    eapply (limited_step _ _ _ 30 0).
    + eapply limited_step; [apply limited_root|by left| |].
      * vm_compute. set_solver.
      * apply not_mapped_away, (bool_decide_unpack _). vm_compute. exact I.
    + right. apply depth_stable_unlimited.
    + vm_compute. set_solver.
    + apply not_mapped_away, (bool_decide_unpack _). vm_compute. exact I.
Defined.

(** The restrictions are needed.  In [Samples.dense] the composite input
    [12], mapped to [13] by the block [10], is reachable but marked visited
    without being visited.  In [Samples.nested] with [max_depth = 1] the
    block [30] is first handled at depth 1, unexpanded, so that [32], which
    is reachable through [30] at depth 0, is not returned. *)
Example restrictions_needed :
  (depth_first_search Samples.dense 10 (λ _, Ok true) None false
     = Some (Ok [10; 11; 13])
   ∧ reach_within Samples.dense None 10 12 1 ∧ 12 ∉ [10; 11; 13])
  ∧ (depth_first_search Samples.nested 29 (λ _, Ok true) (Some 1%Z) false
       = Some (Ok [29; 31; 33; 30])
     ∧ reach_within Samples.nested (Some 1%Z) 29 32 1 ∧ 32 ∉ [29; 31; 33; 30]).
Proof.
  split; split_and!; try (vm_compute; reflexivity); try set_solver.
  - eapply (within_step _ _ _ 11 1).
    + eapply within_step; [apply within_root|]. vm_compute. set_solver.
    + vm_compute. set_solver.
  - eapply (within_step _ _ _ 30 0).
    + eapply within_step; [apply within_root|]. vm_compute. set_solver.
    + vm_compute. set_solver.
Qed.

End Completeness.

(** * Further properties of the export *)

Module ExportMore.
Import OFG Text Walk Same.

(** ** Splitting and joining lines *)

Lemma concat_cons (sep x y : string) (l : list string) :
  String.concat sep (x :: y :: l) = x +:+ sep +:+ String.concat sep (y :: l).
Proof. reflexivity. Qed.

Lemma split_lines_nonempty s : split_lines s ≠ [].
Proof.
  destruct s as [|c s]; cbn [split_lines]; [done|].
  destruct (Ascii.eqb c "010"); [done|]. by destruct (split_lines s).
Qed.

Lemma split_lines_newline_free s : Forall newline_free (split_lines s).
Proof.
  induction s as [|c s IH]; cbn [split_lines]; [by repeat constructor|].
  destruct (Ascii.eqb_spec c "010") as [->|Hc]; [by constructor|].
  destruct (split_lines s) as [|l ls]; [by repeat constructor|].
  apply Forall_cons in IH as [Hl Hls]. by repeat constructor.
Qed.

Lemma concat_split_lines s : String.concat nl (split_lines s) = s.
Proof.
  induction s as [|c s IH]; cbn [split_lines]; [done|].
  pose proof (split_lines_nonempty s) as Hne.
  destruct (split_lines s) as [|l ls]; [done|].
  destruct (Ascii.eqb_spec c "010") as [->|Hc].
  - rewrite concat_cons, IH. reflexivity.
  - destruct ls as [|l' ls].
    + simpl in *. by rewrite IH.
    + rewrite concat_cons. rewrite concat_cons in IH.
      change (String c l +:+ nl +:+ String.concat nl (l' :: ls))
        with (String c (l +:+ nl +:+ String.concat nl (l' :: ls))).
      by rewrite IH.
Qed.

Lemma split_lines_free s : newline_free s → split_lines s = [s].
Proof.
  induction s as [|c s IH]; [done|]. intros [Hc Hs].
  cbn [split_lines]. rewrite IH by done.
  by destruct (Ascii.eqb_spec c "010").
Qed.

Lemma split_lines_concat l :
  l ≠ [] → Forall newline_free l → split_lines (String.concat nl l) = l.
Proof.
  intros Hne Hl. induction Hl as [|x l Hx Hl IH]; [done|].
  destruct l as [|y l].
  - by apply split_lines_free.
  - rewrite concat_cons, OFGFacts.split_lines_line by done.
    by rewrite IH.
Qed.

(** Line 260 loses nothing: joining the pieces of a split gives the text
    back, and reversing the lines of a text twice gives the text back. *)
Theorem reversed_lines_involutive s :
  String.concat nl (split_lines s) = s
  ∧ reversed_lines (reversed_lines s) = s.
Proof.
  split; [apply concat_split_lines|].
  unfold reversed_lines.
  rewrite split_lines_concat.
  - rewrite reverse_involutive. apply concat_split_lines.
  - intros Hnil. apply (split_lines_nonempty s).
    apply (f_equal reverse) in Hnil. by rewrite reverse_involutive in Hnil.
  - apply Forall_reverse, split_lines_newline_free.
Qed.


(** ** A cycle through a composite function *)

(** The loop marks [node.root_function], not the node popped: when the root
    function [r] of a composite [n] has [n] as its input, [n] is popped
    again and again and the export never returns, whatever the number of
    iterations allowed. *)
Theorem composite_cycle_never_returns g n r p pydot_ng :
  getattr g root_function n = Some r → r ≠ n →
  function_ok g (write_to_file p) r = true →
  getattr g inputs r = Some [n] →
  (write_to_file p = true → pydot_ng = true) →
  ∀ fuel, traverse fuel g (write_to_file p) n = None
          ∧ output_function_graph fuel pydot_ng g n p = None.
Proof.
  intros Hr Hne Hok Hins Hpy fuel.
  assert (Hloop : ∀ fuel st, stack st = [n] → n ∉ visited st →
                    loop fuel g (write_to_file p) st = None).
  { clear fuel. induction fuel as [|fuel IH]; intros st Hs Hv; simpl.
    - by rewrite Hs.
    - rewrite Hs.
      destruct (OFGFacts.export_iter_step g (write_to_file p) st)
        as (st' & -> & Hstep).
      + rewrite Hs. repeat constructor. unfold root_ok. by rewrite Hr.
      + by rewrite Hs.
      + apply IH.
        * destruct Hstep as [m nd rest acc vis mdl dot Hin
                            |m r' nd rest acc vis mdl dot ins l dot' Hm Hr' _ Hins' _ _
                            |m nd rest acc vis mdl dot Hm Hr'];
            simpl in *; simplify_eq; done.
        * destruct Hstep as [m nd rest acc vis mdl dot Hin
                            |m r' nd rest acc vis mdl dot ins l dot' Hm Hr' _ Hins' _ _
                            |m nd rest acc vis mdl dot Hm Hr'];
            simpl in *; simplify_eq; set_solver. }
  assert (Ht : traverse fuel g (write_to_file p) n = None).
  { unfold traverse. apply Hloop; [done|]. simpl. set_solver. }
  split; [done|]. unfold output_function_graph. rewrite Ht.
  destruct (write_to_file p); [|done]. by rewrite Hpy.
Qed.

Lemma composite_cycle_never_returns_witness :
  traverse 1000 Samples.looping false 40 = None
  ∧ output_function_graph 1000 false Samples.looping 40
      (Paths None None None None) = None.
Proof.
  apply (composite_cycle_never_returns Samples.looping 40 41
           (Paths None None None None) false);
    try (vm_compute; reflexivity).
  - lia.
  - simpl. discriminate.
Defined.

(** ** A function node without outputs *)

Lemma bind_raise {A B} (m : M A) (k : A → M B) st st' e :
  m st = (st', Raise e) → (m ≫= k) st = (st', Raise e).
Proof. intros H. unfold mbind, M_bind. by rewrite H. Qed.

Local Ltac run :=
  erewrite OFGFacts.bind_ok by (first [reflexivity | by apply OFGFacts.attr_some]);
  cbn [node stack accum visited model dot_object].

(** [node.outputs[0]] on an empty [outputs] raises [IndexError], which the
    [except AttributeError] does not catch: the export raises it, after the
    import if files were asked for, and writes no file. *)
Theorem no_outputs_raises_index_error g root r p pydot_ng ins op uids fuel :
  getattr g root_function root = Some r →
  getattr g inputs r = Some ins →
  getattr g op_name r = Some op →
  mapM (getattr g uid) ins = Some uids →
  getattr g outputs r = Some [] →
  (write_to_file p = true →
     pydot_ng = true ∧ is_Some (getattr g uid r)
     ∧ Forall (λ c, is_Some (getattr g shape c)) ins) →
  output_function_graph (S fuel) pydot_ng g root p
  = Some (if write_to_file p then [ImportPydot] else [], Raise IndexError).
Proof.
  intros Hr Hins Hop Hu Houts Hw.
  assert (Hfn : ∃ st', function_node g (write_to_file p) (State root [] [] ∅ "" [])
                       = (st', Raise IndexError)).
  { unfold function_node. do 7 run.
    destruct (write_to_file p) eqn:Hwtf.
    - destruct (Hw eq_refl) as (_ & [u Hn] & Hsh).
      erewrite OFGFacts.bind_ok.
      2:{ do 2 run. reflexivity. }
      match goal with
      | |- context [add_inputs g true ?cur ?len 0 ins ≫= ?k] =>
          edestruct (OFGFacts.add_inputs_ok g true cur len 0 ins uids)
            as (dot1 & Hrun & _); [done|done|done|]
      end.
      erewrite OFGFacts.bind_ok by apply Hrun.
      unfold with_text. cbn [node stack accum visited model dot_object].
      run. eexists. apply bind_raise. reflexivity.
    - run.
      edestruct (OFGFacts.add_inputs_ok g false "" (length ins) 0 ins uids)
        as (dot1 & Hrun & _); [done|done|done|].
      erewrite OFGFacts.bind_ok by apply Hrun.
      unfold with_text. cbn [node stack accum visited model dot_object].
      run. eexists. apply bind_raise. reflexivity. }
  destruct Hfn as [st' Hfn].
  assert (Ht : traverse (S fuel) g (write_to_file p) root = Some (st', Raise IndexError)).
  { unfold traverse. cbn [loop init stack].
    unfold iter, init. cbn [stack visited accum model dot_object].
    rewrite decide_False by set_solver.
    unfold handle. erewrite bind_raise; [done|].
    unfold except_attribute_error. by rewrite Hfn. }
  unfold output_function_graph. rewrite Ht.
  destruct (write_to_file p) eqn:Hwtf; [|done].
  destruct (Hw eq_refl) as (-> & _). done.
Qed.


Lemma no_outputs_raises_index_error_witness :
  output_function_graph 1 true Samples.sink 50 (Paths None (Some "sink.png") None None)
  = Some ([ImportPydot], Raise IndexError).
Proof.
  apply (no_outputs_raises_index_error Samples.sink 50 50
           (Paths None (Some "sink.png") None None) true [51] "Sink"
           ["Parameter51"] 0); try (vm_compute; reflexivity).
  intros _. split_and!; [done|by eexists|].
  repeat constructor. by eexists.
Defined.

(** ** No node is collected twice *)

Lemma step_stack_tail g wtf (Q : loc → Prop) st st' :
  well_formed g wtf → (∀ n, node_ok g wtf n = true → Q n) →
  step g wtf st st' → Forall Q (tail (stack st)) → Forall Q (stack st').
Proof.
  intros Hwf HQ.
  destruct 1 as [n nd rest acc vis mdl dot Hin
                |n r nd rest acc vis mdl dot ins l dot' Hn Hr Hrr Hins Hl Hdot
                |n nd rest acc vis mdl dot Hn Hr];
    cbn [stack tail]; intros Hrest; [done|..].
  - apply Forall_app. split; [|done]. apply Forall_reverse.
    eapply Forall_impl; [by eapply OFGFacts.well_formed_inputs|]. done.
  - apply Forall_app. split; [|done]. apply Forall_reverse.
    unfold owner_of. destruct (getattr g is_output n) as [[]|]; try constructor.
    destruct (getattr g owner n) as [o|] eqn:Ho; constructor; [|constructor].
    apply HQ. by eapply OFGFacts.well_formed_owner.
Qed.

(** On a graph whose function nodes are well formed the export collects no
    node twice, so that no function node gives two lines, and the nodes
    collected are the nodes marked visited. *)
Theorem export_collects_once g wtf root fuel st r :
  well_formed g wtf → root_ok g wtf root = true →
  traverse fuel g wtf root = Some (st, r) →
  NoDup (accum st) ∧ ∀ n, n ∈ accum st ↔ n ∈ visited st.
Proof.
  intros Hwf Hroot Ht.
  destruct (OFGFacts.export_loop_invariant g wtf
              (λ s, NoDup (accum s) ∧ (∀ n, n ∈ accum s ↔ n ∈ visited s)
                    ∧ (visited s = ∅
                       ∨ Forall (λ n, node_ok g wtf n = true) (stack s))
                    ∧ Forall (λ n, node_ok g wtf n = true) (tail (stack s)))
              fuel (init root) st r Hwf) as [(Hnd & Hvis & _) _]; try done.
  - intros s s' (Hnd & Hvis & Hok & Htail) Hstep.
    assert (Hstack : Forall (λ n, node_ok g wtf n = true) (stack s'))
      by (by eapply step_stack_tail).
    split_and!; [| |by right|by destruct (stack s'); [|apply Forall_cons in Hstack as [_ ?]]].
    + destruct Hstep as [n nd rest acc vis mdl dot Hin
                        |n r' nd rest acc vis mdl dot ins l dot' Hn Hr Hrr Hins Hl Hdot
                        |n nd rest acc vis mdl dot Hn Hr];
        simpl in *; [done|..].
      * apply NoDup_app. split_and!; [done| |apply NoDup_singleton].
        intros x Hx Hx'. apply list_elem_of_singleton in Hx' as ->.
        apply Hvis in Hx. destruct Hok as [->|Hok]; [set_solver|].
        apply Forall_cons in Hok as [Hok _]. unfold node_ok, is_function in Hok.
        rewrite Hr in Hok. rewrite bool_decide_eq_true_2 in Hok by eauto.
        simpl in Hok. apply OFGFacts.function_ok_line in Hok as [Hself _].
        congruence.
      * apply NoDup_app. split_and!; [done| |apply NoDup_singleton].
        intros x Hx Hx'. apply list_elem_of_singleton in Hx' as ->.
        by apply Hn, Hvis.
    + destruct Hstep as [n nd rest acc vis mdl dot Hin
                        |n r' nd rest acc vis mdl dot ins l dot' Hn Hr Hrr Hins Hl Hdot
                        |n nd rest acc vis mdl dot Hn Hr];
        simpl in *; [done|..]; intros x; rewrite elem_of_app, Hvis; set_solver.
  - simpl. split_and!; [constructor|set_solver|by left|constructor].
  - by repeat constructor.
Qed.

Lemma export_collects_once_witness :
  ∃ st, traverse 20 Samples.chain false 6 = Some (st, Ok ())
        ∧ NoDup (accum st) ∧ ∀ n, n ∈ accum st ↔ n ∈ visited st.
Proof.
  eexists. split; [vm_compute; reflexivity|].
  eapply (export_collects_once Samples.chain false 6 20 _ (Ok ())).
  - apply Agreement.chain_well_formed.
  - vm_compute. reflexivity.
  - vm_compute. reflexivity.
Defined.

(** ** Asking for files does not change the text *)

Lemma function_ok_weaken g n : function_ok g true n = true → function_ok g false n = true.
Proof.
  unfold function_ok. rewrite !andb_true_iff. intros [[? ?] _]. by split_and!.
Qed.

Lemma root_ok_weaken g n : root_ok g true n = true → root_ok g false n = true.
Proof.
  unfold root_ok. destruct (getattr g root_function n); [|done].
  apply function_ok_weaken.
Qed.

Lemma node_ok_weaken g n : node_ok g true n = true → node_ok g false n = true.
Proof.
  unfold node_ok. destruct (is_function g n); simpl; [|done].
  apply function_ok_weaken.
Qed.

Lemma well_formed_weaken g : well_formed g true → well_formed g false.
Proof.
  intros Hwf n o Ho. specialize (Hwf n o Ho). simpl in *.
  apply andb_true_iff in Hwf as [Hi Hw]. apply andb_true_iff. split.
  - rewrite forallb_forall in *. intros x Hx. by apply node_ok_weaken, Hi.
  - destruct (owner o); [|done]. by apply node_ok_weaken.
Qed.

Lemma step_same_text g s1 s1' s2 s2' :
  step g true s1 s1' → step g false s2 s2' → same_text s1 s2 → same_text s1' s2'.
Proof.
  unfold same_text.
  destruct 1 as [n nd rest acc vis mdl dot Hin
                |n r nd rest acc vis mdl dot ins l dot' Hn Hr Hrr Hins Hl Hdot
                |n nd rest acc vis mdl dot Hn Hr];
    destruct 1 as [n2 nd2 rest2 acc2 vis2 mdl2 dot2 Hin2
                  |n2 r2 nd2 rest2 acc2 vis2 mdl2 dot2 ins2 l2 dot2' Hn2 Hr2 Hrr2 Hins2 Hl2 Hdot2
                  |n2 nd2 rest2 acc2 vis2 mdl2 dot2 Hn2 Hr2];
    simpl; intros (_ & ? & ? & ? & ?); simplify_eq; done.
Qed.

Lemma loops_same_text g fuel s1 s2 :
  well_formed g true →
  Forall (λ n, root_ok g true n = true) (stack s1) →
  same_text s1 s2 →
  match loop fuel g true s1, loop fuel g false s2 with
  | Some (s1', Ok _), Some (s2', Ok _) => same_text s1' s2'
  | None, None => True
  | _, _ => False
  end.
Proof.
  intros Hwf. revert s1 s2. induction fuel as [|fuel IH]; intros s1 s2 Hok Hsame.
  - simpl. pose proof Hsame as (_ & Hs & _).
    destruct (stack s1) eqn:Hs1, (stack s2) eqn:Hs2; try done.
  - simpl. pose proof Hsame as (_ & Hs & _).
    destruct (stack s1) as [|n rest] eqn:Hs1, (stack s2) as [|n2 rest2] eqn:Hs2;
      try done.
    rewrite <-Hs1 in Hok.
    destruct (OFGFacts.export_iter_step g true s1) as (s1' & -> & Hstep1);
      [done|by rewrite Hs1|].
    destruct (OFGFacts.export_iter_step g false s2) as (s2' & -> & Hstep2).
    { rewrite Hs2, <-Hs, <-Hs1. eapply Forall_impl; [exact Hok|]. apply root_ok_weaken. }
    { by rewrite Hs2. }
    apply IH; [|by eapply step_same_text].
    eapply OFGFacts.step_stack; [done|apply OFGFacts.node_ok_root_ok|done|done].
Qed.

(** On a graph whose function nodes are well formed (shapes included),
    the string returned when files are written is the string returned
    when none is. *)
Theorem text_independent_of_files g root fuel p effects text pydot_ng :
  well_formed g true → root_ok g true root = true →
  output_function_graph fuel true g root p = Some (effects, Ok text) →
  output_function_graph fuel pydot_ng g root (Paths None None None None)
  = Some ([], Ok text).
Proof.
  intros Hwf Hroot.
  assert (output_function_graph fuel pydot_ng g root (Paths None None None None)
          = match loop fuel g false (init root) with
            | Some (st, Ok _) => Some ([], Ok (reversed_lines (model st)))
            | Some (st, Raise e) => Some ([], Raise e)
            | None => None
            end) as -> by reflexivity.
  unfold output_function_graph, traverse. simpl. rewrite andb_false_r.
  destruct (write_to_file p) eqn:Hw.
  - pose proof (loops_same_text g fuel (init root) (init root) Hwf) as Hsame.
    destruct (loop fuel g true (init root)) as [[s1 [[]|e]]|]; [|done..].
    intros [= <- <-].
    destruct (loop fuel g false (init root)) as [[s2 [[]|e]]|];
      try (exfalso; apply Hsame; [by repeat constructor|done]).
    destruct Hsame as (_ & _ & _ & _ & Hm); [by repeat constructor|done|].
    by rewrite Hm.
  - destruct (loop fuel g false (init root)) as [[s1 [[]|e]]|]; [|done..].
    intros [= <- <-]. done.
Qed.

Lemma text_independent_of_files_witness :
  ∃ effects text,
    output_function_graph 20 true Samples.chain 6
      (Paths (Some "net.dot") None None (Some "net.svg")) = Some (effects, Ok text)
    ∧ length effects = 3
    ∧ output_function_graph 20 false Samples.chain 6 (Paths None None None None)
      = Some ([], Ok text).
Proof.
  eexists _, _. split; [vm_compute; reflexivity|]. split; [reflexivity|].
  eapply (text_independent_of_files Samples.chain 6 20
            (Paths (Some "net.dot") None None (Some "net.svg")) _ _ false).
  - apply Agreement.chain_well_formed.
  - vm_compute. reflexivity.
  - vm_compute. reflexivity.
Defined.

End ExportMore.

(** * What the export returns *)

Module Serialization.
Import OFG Text Walk Collect.

Lemma node_ok_function g wtf n r :
  node_ok g wtf n = true → getattr g root_function n = Some r → r = n.
Proof.
  unfold node_ok, is_function. intros Hok Hr. rewrite Hr in Hok.
  rewrite bool_decide_eq_true_2 in Hok by eauto. simpl in Hok.
  apply OFGFacts.function_ok_line in Hok as [Hself _]. congruence.
Qed.

(** What handling [n], whose root function or self is [e], establishes. *)
Lemma collect_ok_handle g wtf root e rest acc vis pushed mdl' dot' :
  well_formed g wtf →
  e ∉ vis →
  collected g root e →
  (vis = ∅ → e = entry g root) →
  (vis ≠ ∅ → entry g root ∈ vis) →
  export_successors g e = pushed →
  Forall (λ n, node_ok g wtf n = true) pushed →
  NoDup acc → (∀ n, n ∈ acc ↔ n ∈ vis) →
  (∀ n, n ∈ rest → collected g root n ∧ node_ok g wtf n = true) →
  (∀ n, n ∈ vis →
        collected g root n
        ∧ ∀ n', n' ∈ export_successors g n → n' ∈ vis ∨ n' = e ∨ n' ∈ rest) →
  collect_ok g wtf root
    (State e (reverse pushed ++ rest) (acc ++ [e]) ({[e]} ∪ vis) mdl' dot').
Proof.
  intros Hwf He Hce Hempty Hne Hsucc Hok Hnd Hacc Hrest Hvis.
  split; simpl.
  - apply NoDup_app. split_and!; [done| |apply NoDup_singleton].
    intros x Hx Hx'. apply list_elem_of_singleton in Hx' as ->. by apply He, Hacc.
  - intros n. rewrite elem_of_app, Hacc, list_elem_of_singleton. set_solver.
  - destruct (decide (vis = ∅)) as [Hv|Hv]; [rewrite <-(Hempty Hv)|]; set_solver.
  - intros n [Hn|Hn]%elem_of_app; [|by apply Hrest].
    rewrite elem_of_reverse in Hn. split.
    + eapply collected_step; [exact Hce|]. by rewrite Hsucc.
    + rewrite Forall_forall in Hok. by apply Hok.
  - intros n [Hn|Hn]%elem_of_union.
    + apply elem_of_singleton in Hn as ->. split; [done|].
      intros n' Hn'. right. apply elem_of_app. left.
      rewrite elem_of_reverse. by rewrite <-Hsucc.
    + destruct (Hvis n Hn) as [Hc Hs]. split; [done|].
      intros n' Hn'. destruct (Hs n' Hn') as [?|[->|?]].
      * left. set_solver.
      * left. set_solver.
      * right. apply elem_of_app. by right.
Qed.

Lemma owner_of_ok g wtf n :
  well_formed g wtf → Forall (λ x, node_ok g wtf x = true) (owner_of g n).
Proof.
  intros Hwf. unfold owner_of.
  destruct (getattr g is_output n) as [[]|]; try constructor.
  destruct (getattr g owner n) as [o|] eqn:Ho; constructor; [|constructor].
  by eapply OFGFacts.well_formed_owner.
Qed.

Lemma collect_ok_first g wtf root st' :
  well_formed g wtf → step g wtf (init root) st' → collect_ok g wtf root st'.
Proof.
  intros Hwf Hstep. unfold init in Hstep.
  inversion Hstep as [n nd rest acc vis mdl dot Hin
                     |n r nd rest acc vis mdl dot ins l dot' Hn Hr Hrr Hins Hl Hdot
                     |n nd rest acc vis mdl dot Hn Hr]; subst.
  - set_solver.
  - assert (He : entry g root = r) by (unfold entry; by rewrite Hr).
    apply (collect_ok_handle g wtf root r [] [] ∅ ins); [done|set_solver|..].
    + rewrite <-He. constructor.
    + done.
    + done.
    + unfold export_successors. by rewrite Hrr, Hins.
    + by eapply OFGFacts.well_formed_inputs.
    + constructor.
    + set_solver.
    + intros n Hn'. by apply elem_of_nil in Hn'.
    + set_solver.
  - assert (He : entry g root = root) by (unfold entry; by rewrite Hr).
    apply (collect_ok_handle g wtf root root [] [] ∅ (owner_of g root));
      [done|set_solver|..].
    + rewrite <-He at 2. constructor.
    + done.
    + done.
    + unfold export_successors. by rewrite Hr.
    + by apply owner_of_ok.
    + constructor.
    + set_solver.
    + intros n Hn'. by apply elem_of_nil in Hn'.
    + set_solver.
Qed.

Lemma collect_ok_step g wtf root st st' :
  well_formed g wtf → collect_ok g wtf root st → step g wtf st st' →
  collect_ok g wtf root st'.
Proof.
  intros Hwf [Hnd Hacc Hentry Hstack Hvis] Hstep.
  destruct Hstep as [n nd rest acc vis mdl dot Hin
                    |n r nd rest acc vis mdl dot ins l dot' Hn Hr Hrr Hins Hl Hdot
                    |n nd rest acc vis mdl dot Hn Hr];
    simpl in *.
  - split; simpl; try done.
    + intros x Hx. apply Hstack. by right.
    + intros x Hx. destruct (Hvis x Hx) as [Hc Hs]. split; [done|].
      intros n' Hn'. destruct (Hs n' Hn') as [?|Hx']; [by left|].
      apply elem_of_cons in Hx' as [->|?]; auto.
  - destruct (Hstack n) as [Hcn Hok]; [left|].
    assert (r = n) as -> by (by eapply node_ok_function).
    apply (collect_ok_handle g wtf root n rest acc vis ins); [done|done|done|..].
    + intros ->. set_solver.
    + done.
    + unfold export_successors. by rewrite Hr, Hins.
    + by eapply OFGFacts.well_formed_inputs.
    + done.
    + done.
    + intros x Hx. apply Hstack. by right.
    + intros x Hx. destruct (Hvis x Hx) as [Hc Hs]. split; [done|].
      intros n' Hn'. destruct (Hs n' Hn') as [?|Hx']; [by left|].
      apply elem_of_cons in Hx' as [->|?]; auto.
  - destruct (Hstack n) as [Hcn Hok]; [left|].
    apply (collect_ok_handle g wtf root n rest acc vis (owner_of g n));
      [done|done|done|..].
    + intros ->. set_solver.
    + done.
    + unfold export_successors. by rewrite Hr.
    + by apply owner_of_ok.
    + done.
    + done.
    + intros x Hx. apply Hstack. by right.
    + intros x Hx. destruct (Hvis x Hx) as [Hc Hs]. split; [done|].
      intros n' Hn'. destruct (Hs n' Hn') as [?|Hx']; [by left|].
      apply elem_of_cons in Hx' as [->|?]; auto.
Qed.

(** At the end the nodes collected are the nodes reachable from the entry
    node. *)
Lemma collect_ok_final g wtf root st :
  collect_ok g wtf root st → stack st = [] →
  ∀ n, n ∈ accum st ↔ collected g root n.
Proof.
  intros [Hnd Hacc Hentry Hstack Hvis] Hs n. rewrite Hacc. split.
  - intros Hn. by apply Hvis.
  - induction 1 as [|n n' _ IH Hn']; [done|].
    destruct (Hvis n IH) as [_ Hsucc].
    destruct (Hsucc n' Hn') as [?|Hx]; [done|].
    rewrite Hs in Hx. by apply elem_of_nil in Hx.
Qed.

(** A function node collected is not an output variable for
    [depth_first_search]. *)
Lemma functions_step g wtf st st' :
  step g wtf st st' →
  (∀ n, n ∈ accum st → is_function g n = true → Search.output_variable g n = false) →
  ∀ n, n ∈ accum st' → is_function g n = true → Search.output_variable g n = false.
Proof.
  destruct 1 as [n nd rest acc vis mdl dot Hin
                |n r nd rest acc vis mdl dot ins l dot' Hn Hr Hrr Hins Hl Hdot
                |n nd rest acc vis mdl dot Hn Hr];
    cbn [accum]; intros IH x; [by apply IH|..].
  - intros [Hx|Hx]%elem_of_app; [by apply IH|].
    apply list_elem_of_singleton in Hx as ->. intros _.
    unfold Search.output_variable, DFS.function_inputs. rewrite Hrr. simpl.
    rewrite Hins. by rewrite bool_decide_eq_false_2.
  - intros [Hx|Hx]%elem_of_app; [by apply IH|].
    apply list_elem_of_singleton in Hx as ->.
    unfold is_function. rewrite Hr, bool_decide_eq_true. by intros [? ?].
Qed.

Lemma lines_of_filter g ns :
  (∀ n, n ∈ ns → is_function g n = true → Search.output_variable g n = false) →
  lines_of g (filter (λ n, Search.output_variable g n = false) ns) = lines_of g ns.
Proof.
  intros H. unfold lines_of. f_equal.
  induction ns as [|a ns IH]; [done|].
  rewrite (filter_cons (λ n, Search.output_variable g n = false)).
  rewrite (filter_cons (λ n, is_function g n = true) a ns).
  destruct (decide (Search.output_variable g a = false)) as [Ho|Ho].
  - rewrite filter_cons. rewrite IH; [done|]. intros n Hn. apply H. by right.
  - destruct (decide (is_function g a = true)) as [Hf|Hf].
    + exfalso. apply Ho, H; [by left|done].
    + apply IH. intros n Hn. apply H. by right.
Qed.

(** On a well-formed graph the traversal of the export returns, having
    collected once each node reachable from the entry node; its text holds
    the lines of the function nodes collected, which come in the order in
    which [depth_first_search], not entering blocks, returns them. *)
Lemma traverse_serializes g wtf root fuel :
  well_formed g wtf → root_ok g wtf root = true → DFS.fuel_for g root ≤ fuel →
  ∃ st res, traverse fuel g wtf root = Some (st, Ok ())
    ∧ NoDup (accum st)
    ∧ (∀ n, n ∈ accum st ↔ collected g root n)
    ∧ depth_first_search g (entry g root) (λ _, Ok true) (Some 0%Z) false
      = Some (Ok res)
    ∧ lines_of g (accum st) = lines_of g res
    ∧ (∀ n, n ∈ accum st → is_function g n = true → is_Some (line g n))
    ∧ model st = text_of (lines_of g (accum st)).
Proof.
  intros Hwf Hroot Hfuel.
  assert (∃ os ds, traverse fuel g wtf root = Some (os, Ok ())
            ∧ DFS.run (DFS.fuel_for g (entry g root)) g (entry g root)
                (λ _, Ok true) (Some 0%Z) = Some (Ok ds)
            ∧ related g os ds) as (os & ds & Ht & Hd & Hrel).
  { pose proof Hroot as Hroot'. unfold root_ok in Hroot'. unfold entry.
    destruct (getattr g root_function root) as [r|] eqn:Hr; simpl.
    - pose proof Hroot' as [Hrr _]%OFGFacts.function_ok_line.
      rewrite (ExportFacts.traverse_root_function g _ root r fuel Hr Hrr).
      apply (Agreement.traverse_returns g wtf (Some 0%Z) r fuel Hwf);
        [|apply Agreement.depth_zero_expands|done].
      unfold node_ok. rewrite Hroot'. by rewrite orb_true_r.
    - apply (Agreement.traverse_returns g wtf (Some 0%Z) root fuel Hwf);
        [|apply Agreement.depth_zero_expands|done].
      unfold node_ok, is_function. rewrite Hr.
      rewrite bool_decide_eq_false_2; [done|]. by intros [? ?]. }
  exists os, (filter (λ n, Search.output_variable g n = false) (accum os)).
  split; [done|].
  destruct (OFGFacts.export_loop_invariant g wtf
              (λ s, (s = init root ∨ collect_ok g wtf root s)
                    ∧ model s = text_of (lines_of g (accum s))
                    ∧ (∀ n, n ∈ accum s → is_function g n = true → is_Some (line g n))
                    ∧ (∀ n, n ∈ accum s → is_function g n = true →
                            Search.output_variable g n = false))
              fuel (init root) os (Ok ()) Hwf)
    as ((Hco & Hmodel & Hlines & Hfun) & _ & Hs).
  { intros s s' (Hco & Hm & Hl & Hf) Hstep. split_and!.
    - right. destruct Hco as [->|Hco];
        [by apply collect_ok_first|by eapply collect_ok_step].
    - by eapply OFGFacts.model_step.
    - by eapply ExportFacts.lines_step.
    - by eapply functions_step. }
  { split_and!; [by left|done|..]; simpl; intros n Hn; by apply elem_of_nil in Hn. }
  { by repeat constructor. }
  { exact Ht. }
  destruct Hco as [->|Hco]; [done|].
  destruct Hrel as (_ & _ & Ha).
  split_and!; [apply Hco|by eapply collect_ok_final| | |done|done].
  - unfold depth_first_search. rewrite Hd. simpl. by rewrite <-Ha.
  - by rewrite lines_of_filter.
Qed.

(** What [output_function_graph] returns once its traversal has. *)
Lemma output_function_graph_returns fuel pydot_ng g root p st :
  (write_to_file p = true → pydot_ng = true) →
  traverse fuel g (write_to_file p) root = Some (st, Ok ()) →
  output_function_graph fuel pydot_ng g root p
  = Some ((if write_to_file p then [ImportPydot] else []) ++ writes p (dot_object st),
          Ok (reversed_lines (model st))).
Proof.
  intros Hpy Ht. unfold output_function_graph. rewrite Ht.
  destruct (write_to_file p) eqn:Hw; [|done]. by rewrite Hpy.
Qed.

(** C7, as amended.  On a graph whose function nodes are well formed,
    started from a variable, a function node or a composite function,
    [output_function_graph] returns a string.  Its traversal collects, once
    each, exactly the nodes reachable from the entry node (the start node,
    or its root function) through the inputs of function nodes and the
    owners of output variables.  Every function node collected has
    contributed its line [op_name(uid_1, ..., uid_k) -> output_uid] to the
    accumulated text, in the order of the visits, which is the order in
    which [depth_first_search] from the entry node, with the visitor that
    accepts every node and [max_depth] 0, returns the function nodes.  The
    string returned is the lines of that text joined in reversed order:
    the text ends with a newline, so these are, when no line contains a
    newline, an empty line first and then the lines of the function nodes,
    last one first. *)
Theorem output_function_graph_text g root p pydot_ng fuel :
  well_formed g (write_to_file p) →
  root_ok g (write_to_file p) root = true →
  (write_to_file p = true → pydot_ng = true) →
  DFS.fuel_for g root ≤ fuel →
  ∃ st effects res,
    traverse fuel g (write_to_file p) root = Some (st, Ok ())
    ∧ NoDup (accum st)
    ∧ (∀ n, n ∈ accum st ↔ collected g root n)
    ∧ depth_first_search g (entry g root) (λ _, Ok true) (Some 0%Z) false
      = Some (Ok res)
    ∧ lines_of g (accum st) = lines_of g res
    ∧ (∀ n, n ∈ accum st → is_function g n = true → is_Some (line g n))
    ∧ model st = text_of (lines_of g (accum st))
    ∧ output_function_graph fuel pydot_ng g root p
      = Some (effects,
              Ok (String.concat nl
                    (reverse (split_lines (text_of (lines_of g (accum st)))))))
    ∧ (Forall newline_free (lines_of g (accum st)) →
       output_function_graph fuel pydot_ng g root p
       = Some (effects,
               Ok (String.concat nl ("" :: reverse (lines_of g (accum st)))))).
Proof.
  intros Hwf Hroot Hpy Hfuel.
  destruct (traverse_serializes g (write_to_file p) root fuel Hwf Hroot Hfuel)
    as (st & res & Ht & Hnd & Hcol & Hd & Hres & Hlines & Hmodel).
  pose proof (output_function_graph_returns fuel pydot_ng g root p st Hpy Ht) as Hofg.
  exists st. eexists. exists res. split_and!; try done.
  - rewrite Hofg. unfold reversed_lines. by rewrite Hmodel.
  - intros Hnl. rewrite Hofg, Hmodel. by rewrite OFGFacts.reversed_lines_text.
Qed.

(** From the composite [6] of [Samples.chain]. *)
Lemma output_function_graph_text_witness :
  ∃ st effects res,
    traverse 20 Samples.chain false 6 = Some (st, Ok ())
    ∧ NoDup (accum st)
    ∧ (∀ n, n ∈ accum st ↔ collected Samples.chain 6 n)
    ∧ depth_first_search Samples.chain (entry Samples.chain 6) (λ _, Ok true)
        (Some 0%Z) false = Some (Ok res)
    ∧ lines_of Samples.chain (accum st) = lines_of Samples.chain res
    ∧ (∀ n, n ∈ accum st → is_function Samples.chain n = true →
            is_Some (line Samples.chain n))
    ∧ model st = text_of (lines_of Samples.chain (accum st))
    ∧ output_function_graph 20 false Samples.chain 6 (Paths None None None None)
      = Some (effects,
              Ok (String.concat nl
                    (reverse (split_lines
                                (text_of (lines_of Samples.chain (accum st)))))))
    ∧ (Forall newline_free (lines_of Samples.chain (accum st)) →
       output_function_graph 20 false Samples.chain 6 (Paths None None None None)
       = Some (effects,
               Ok (String.concat nl
                     ("" :: reverse (lines_of Samples.chain (accum st)))))).
Proof.
  apply (output_function_graph_text Samples.chain 6 (Paths None None None None)
           false 20).
  - apply Agreement.chain_well_formed.
  - vm_compute. reflexivity.
  - simpl. discriminate.
  - vm_compute. lia.
Defined.

(** C7, as stated, fails: the accumulated text ends with a newline, so the
    string returned begins with an empty line, which the accumulated lines
    joined in reversed order do not have. *)
Lemma export_begins_with_empty_line :
  ∃ st,
    traverse 20 Samples.chain false 0 = Some (st, Ok ())
    ∧ lines_of Samples.chain (accum st)
      = ["Plus(Times3_Output_0, Parameter2) -> Plus7_Output_0";
         "Times(Parameter1) -> Times3_Output_0"]
    ∧ model st = text_of (lines_of Samples.chain (accum st))
    ∧ output_function_graph 20 false Samples.chain 0 (Paths None None None None)
      = Some ([], Ok (String.concat nl
                        ("" :: reverse (lines_of Samples.chain (accum st)))))
    ∧ String.concat nl ("" :: reverse (lines_of Samples.chain (accum st)))
      ≠ String.concat nl (reverse (lines_of Samples.chain (accum st))).
Proof.
  eexists. split; [vm_compute; reflexivity|].
  split_and!; [by vm_compute|by vm_compute|by vm_compute|].
  vm_compute. discriminate.
Qed.

(** C8, as amended.  The package is imported exactly when one of the four
    paths is not [None]; the call then raises [ImportError] when the import
    fails; when the call returns a string, the files written are exactly
    those whose path is not [None] and not empty (svg, pdf, png and dot, in
    this order).  On a graph whose function nodes are well formed, when the
    package can be imported if it is needed, the call returns the textual
    serialization, the lines of the text accumulated over the nodes
    reachable from the entry node, in reversed order, after the import, if
    any, and these writes.  When the four paths are [None], nothing is
    imported or written whatever the outcome, and on such a graph the call
    returns the textual serialization. *)
Theorem output_function_graph_effects fuel pydot_ng g root p :
  (write_to_file p = true ↔
     dot_file_path p ≠ None ∨ png_file_path p ≠ None
     ∨ pdf_file_path p ≠ None ∨ svg_file_path p ≠ None)
  ∧ (∀ effects r, output_function_graph fuel pydot_ng g root p = Some (effects, r) →
       (ImportPydot ∈ effects ↔ write_to_file p = true))
  ∧ (write_to_file p = true → pydot_ng = false →
       output_function_graph fuel pydot_ng g root p
       = Some ([ImportPydot], Raise ImportError))
  ∧ (∀ effects text,
       output_function_graph fuel pydot_ng g root p = Some (effects, Ok text) →
       ∀ format path,
         (∃ content, Write format path content ∈ effects) ↔
         path ≠ ""
         ∧ ((format = "svg" ∧ svg_file_path p = Some path)
            ∨ (format = "pdf" ∧ pdf_file_path p = Some path)
            ∨ (format = "png" ∧ png_file_path p = Some path)
            ∨ (format = "dot" ∧ dot_file_path p = Some path)))
  ∧ (well_formed g (write_to_file p) →
     root_ok g (write_to_file p) root = true →
     (write_to_file p = true → pydot_ng = true) →
     DFS.fuel_for g root ≤ fuel →
     ∃ st, traverse fuel g (write_to_file p) root = Some (st, Ok ())
       ∧ (∀ n, n ∈ accum st ↔ collected g root n)
       ∧ model st = text_of (lines_of g (accum st))
       ∧ output_function_graph fuel pydot_ng g root p
         = Some ((if write_to_file p then [ImportPydot] else [])
                 ++ writes p (dot_object st),
                 Ok (reversed_lines (model st))))
  ∧ (write_to_file p = false →
     ∀ effects r, output_function_graph fuel pydot_ng g root p = Some (effects, r) →
                  effects = [])
  ∧ (write_to_file p = false →
     well_formed g false → root_ok g false root = true →
     DFS.fuel_for g root ≤ fuel →
     ∃ st, traverse fuel g false root = Some (st, Ok ())
       ∧ (∀ n, n ∈ accum st ↔ collected g root n)
       ∧ model st = text_of (lines_of g (accum st))
       ∧ output_function_graph fuel pydot_ng g root p
         = Some ([], Ok (reversed_lines (model st)))).
Proof.
  split_and!.
  - unfold write_to_file. destruct p as [[] [] [] []]; simpl; naive_solver.
  - intros effects r. unfold output_function_graph.
    destruct (write_to_file p) eqn:Hw; simpl.
    + destruct pydot_ng; simpl.
      * destruct (traverse fuel g true root) as [[st [[]|e]]|]; intros [= <- <-];
          split; try done; intros _; set_solver.
      * intros [= <- <-]. split; [done|]. intros _. set_solver.
    + destruct (traverse fuel g false root) as [[st [[]|e]]|]; intros [= <- <-];
        (split; [|done]); simpl.
      * intros (format & s & _ & ? & _)%ExportFacts.elem_of_writes. done.
      * by intros ?%elem_of_nil.
  - intros Hw ->. unfold output_function_graph. by rewrite Hw.
  - intros effects text. unfold output_function_graph.
    destruct (write_to_file p && negb pydot_ng); [done|].
    destruct (traverse fuel g (write_to_file p) root) as [[st [[]|e]]|];
      intros [= <- <-]; try done.
    intros format path. split.
    + intros [content [Hi|Hw]%elem_of_app].
      * destruct (write_to_file p); [|by apply elem_of_nil in Hi].
        by apply list_elem_of_singleton in Hi.
      * apply ExportFacts.elem_of_writes in Hw
          as (format' & s & ? & [= -> -> ->] & ?). done.
    + intros [Hne Hp]. exists (dot_object st). apply elem_of_app. right.
      apply ExportFacts.elem_of_writes. by exists format, path.
  - intros Hwf Hroot Hpy Hfuel.
    destruct (traverse_serializes g (write_to_file p) root fuel Hwf Hroot Hfuel)
      as (st & res & Ht & _ & Hcol & _ & _ & _ & Hmodel).
    exists st. split_and!; [done|done|done|].
    by apply output_function_graph_returns.
  - intros Hw effects r. unfold output_function_graph. rewrite Hw. simpl.
    destruct (traverse fuel g false root) as [[st [[]|e]]|]; intros [= <- <-];
      [|done]. by rewrite ExportFacts.write_to_file_false.
  - intros Hw Hwf Hroot Hfuel.
    destruct (traverse_serializes g false root fuel Hwf Hroot Hfuel)
      as (st & res & Ht & _ & Hcol & _ & _ & _ & Hmodel).
    exists st. split_and!; [done|done|done|].
    unfold output_function_graph. rewrite Hw. simpl. rewrite Ht.
    by rewrite ExportFacts.write_to_file_false.
Qed.

(** On [Samples.chain], asked for an svg file and no other. *)
Lemma output_function_graph_effects_witness :
  ∃ st, traverse 20 Samples.chain true 0 = Some (st, Ok ())
    ∧ (∀ n, n ∈ accum st ↔ collected Samples.chain 0 n)
    ∧ model st = text_of (lines_of Samples.chain (accum st))
    ∧ output_function_graph 20 true Samples.chain 0
        (Paths None None None (Some "net.svg"))
      = Some ([ImportPydot; Write "svg" "net.svg" (dot_object st)],
              Ok (reversed_lines (model st))).
Proof.
  apply (output_function_graph_effects 20 true Samples.chain 0
           (Paths None None None (Some "net.svg"))).
  - apply Agreement.chain_well_formed.
  - vm_compute. reflexivity.
  - done.
  - vm_compute. lia.
Defined.

End Serialization.
